(** * A quaternion camera: the accumulate-then-resolve pipeline of [camera.h]

    The development embeds [camera.h] and its default math backend
    [camera_math_default.h].  The C code computes with [float]; the embedding
    is written once over an interface [Scalar] of the arithmetic the code
    uses, and is then read at two instances:

    - [R_scalar]: exact real arithmetic, the idealisation under which the
      algebraic statements (unit length, composition order, clamping) are
      meant;
    - [Binary32.scalar]: IEEE 754 single precision, every operator rounded
      to nearest-even as [SpecFloat] specifies it (each C operator on
      [float] evaluated in [float], without contraction), the functions of
      [<math.h>] taken as parameters.

    Statements that only depend on the shape of the code are proved for
    every instance.  Statements over [R_scalar] about a whole call are
    made from cameras whose orientation is a unit quaternion, or the zero
    quaternion of [camera_init]: from there the code follows them up to
    rounding.  What overflow, underflow and NaN make of the other cameras
    is stated over [Binary32.scalar]. *)

From Stdlib Require Import ZArith List Bool Lia Permutation.
From Stdlib Require Import Reals Lra Psatz.
From Stdlib Require Import Floats.SpecFloat.
Import ListNotations.

Set Implicit Arguments.

(** ** The arithmetic of [float] *)

Declare Scope float_scope.
Delimit Scope float_scope with fl.

(** The literals and operators the two headers apply to [float] values,
    and the functions they call from [<math.h>]. *)
Class Scalar (F : Type) : Type := {
  f_0      : F;                  (* 0.0f *)
  f_1      : F;                  (* 1.0f *)
  f_2      : F;                  (* 2.0f *)
  f_0_5    : F;                  (* 0.5f *)
  f_0_25   : F;                  (* 0.25f *)
  f_0_0001 : F;                  (* 0.0001f *)
  fadd  : F -> F -> F;
  fsub  : F -> F -> F;
  fmul  : F -> F -> F;
  fdiv  : F -> F -> F;
  fneg  : F -> F;
  fltb  : F -> F -> bool;        (* a < b *)
  sinf  : F -> F;
  cosf  : F -> F;
  asinf : F -> F;
  sqrtf : F -> F;
  atan2f : F -> F -> F;
  powf   : F -> F -> F
}.

Infix "+" := fadd : float_scope.
Infix "-" := fsub : float_scope.
Infix "*" := fmul : float_scope.
Infix "/" := fdiv : float_scope.
Notation "- x" := (fneg x) : float_scope.
Infix "<?" := fltb : float_scope.
(** [a > b] is [b < a]. *)
Notation "a >? b" := (fltb b a) : float_scope.

(** ** [camera_math_default.h] *)

Section CameraMath.

Context {F : Type} {SF : Scalar F}.
Local Open Scope float_scope.

Record Vec3 : Type := cm_init_vec3 { vx : F; vy : F; vz : F }.

Record Quat : Type := cm_init_quat { qx : F; qy : F; qz : F; qw : F }.

Definition cm_invert (a : Quat) : Quat :=
  cm_init_quat (- qx a) (- qy a) (- qz a) (qw a).

Definition cm_mulQuat (a b : Quat) : Quat :=
  let ax := qx a in
  let ay := qy a in
  let az := qz a in
  let aw := qw a in
  let bx := qx b in
  let by_ := qy b in
  let bz := qz b in
  let bw := qw b in
  cm_init_quat
    (aw * bx + ax * bw + ay * bz - az * by_)
    (aw * by_ - ax * bz + ay * bw + az * bx)
    (aw * bz + ax * by_ - ay * bx + az * bw)
    (aw * bw - ax * bx - ay * by_ - az * bz).

Definition cm_mul (v : Vec3) (q : Quat) : Vec3 :=
  let tmp0 := cm_invert q in
  let qv := cm_init_quat (vx v) (vy v) (vz v) f_0 in
  let tmp1 := cm_mulQuat tmp0 qv in
  let result := cm_mulQuat tmp1 q in
  cm_init_vec3 (qx result) (qy result) (qz result).

Definition cm_add (a b : Vec3) : Vec3 :=
  cm_init_vec3 (vx a + vx b) (vy a + vy b) (vz a + vz b).

Definition cm_scale (a : Vec3) (b : F) : Vec3 :=
  cm_init_vec3 (vx a * b) (vy a * b) (vz a * b).

Definition cm_cross (a b : Vec3) : Vec3 :=
  cm_init_vec3
    (vy a * vz b - vz a * vy b)
    (vz a * vx b - vx a * vz b)
    (vx a * vy b - vy a * vx b).

Definition cm_min (a b : F) : F := if a <? b then a else b.

Definition cm_max (a b : F) : F := if a >? b then a else b.

Definition cm_sqrt (a : F) : F := sqrtf a.

Definition cm_toEuler (a : Quat) : Vec3 :=
  let xx := qx a in
  let yy := qy a in
  let zz := qz a in
  let ww := qw a in
  let xsq := xx * xx in
  let ysq := yy * yy in
  let zsq := zz * zz in
  cm_init_vec3
    (atan2f (f_2 * (xx * ww - yy * zz)) (f_1 - f_2 * (xsq + zsq)))
    (atan2f (f_2 * (yy * ww + xx * zz)) (f_1 - f_2 * (ysq + zsq)))
    (asinf (f_2 * (xx * yy + zz * ww))).

Definition cm_fromAxisAngle (axis : Vec3) (angle : F) : Quat :=
  let ha := angle * f_0_5 in
  let sa := sinf ha in
  cm_init_quat (vx axis * sa) (vy axis * sa) (vz axis * sa) (cosf ha).

(** The sum of squares that [cm_normalizeQuat] calls [norm]. *)
Definition quat_norm2 (a : Quat) : F :=
  qx a * qx a + qy a * qy a + qz a * qz a + qw a * qw a.

Definition cm_normalizeQuat (a : Quat) : Quat :=
  let norm := quat_norm2 a in
  if f_0 <? norm then
    let invNorm := powf norm (- f_0_5) in
    cm_init_quat (qx a * invNorm) (qy a * invNorm) (qz a * invNorm)
                 (qw a * invNorm)
  else cm_init_quat f_0 f_0 f_0 f_1.

Definition cm_normalizeVec3 (a : Vec3) : Vec3 :=
  let invLen := f_1 / sqrtf (vx a * vx a + vy a * vy a + vz a * vz a) in
  cm_scale a invLen.

Definition cm_negate (a : Vec3) : Vec3 :=
  cm_init_vec3 (- vx a) (- vy a) (- vz a).

(** The matrix is the C array [float[16]], as the list of its sixteen
    entries in index order. *)
Definition cm_matrixFromQuat (rotation : Quat) : list F :=
  let q_x := qx rotation in
  let q_y := qy rotation in
  let q_z := qz rotation in
  let q_w := qw rotation in
  let x2 := q_x + q_x in
  let y2 := q_y + q_y in
  let z2 := q_z + q_z in
  let x2x := x2 * q_x in
  let x2y := x2 * q_y in
  let x2z := x2 * q_z in
  let x2w := x2 * q_w in
  let y2y := y2 * q_y in
  let y2z := y2 * q_z in
  let y2w := y2 * q_w in
  let z2z := z2 * q_z in
  let z2w := z2 * q_w in
  [ f_1 - (y2y + z2z); x2y - z2w; x2z + y2w; f_0;
    x2y + z2w; f_1 - (x2x + z2z); y2z - x2w; f_0;
    x2z - y2w; y2z + x2w; f_1 - (x2x + y2y); f_0;
    f_0; f_0; f_0; f_1 ].

End CameraMath.

Arguments Vec3 F : clear implicits.
Arguments Quat F : clear implicits.

(** ** [camera.h] *)

(** Camera mode configuration flags, bits of the [uint32_t] field [mode]. *)
Definition CAMERA_MODE_DISABLE_ROLL       : Z := 0x00000001.
Definition CAMERA_MODE_MOVE_IN_WORLDPLANE : Z := 0x00000002.
Definition CAMERA_MODE_CLAMP_PITCH_ANGLE  : Z := 0x00000004.
Definition CAMERA_MODE_CLAMP_YAW_ANGLE    : Z := 0x00000008.
Definition CAMERA_MODE_CLAMP_ROLL_ANGLE   : Z := 0x00000010.

Definition CAMERA_MODE_FREE : Z := 0.

Definition CAMERA_MODE_FIRST_PERSON : Z :=
  Z.lor (Z.lor (Z.lor 0 CAMERA_MODE_DISABLE_ROLL)
               CAMERA_MODE_MOVE_IN_WORLDPLANE)
        CAMERA_MODE_CLAMP_PITCH_ANGLE.

Definition CAMERA_MODE_THIRD_PERSON : Z := CAMERA_MODE_FIRST_PERSON.

Definition CAMERA_MODE_ORBITAL : Z :=
  Z.lor (Z.lor 0 CAMERA_MODE_DISABLE_ROLL) CAMERA_MODE_CLAMP_PITCH_ANGLE.

(** The C test [if (mode & flag)]: the conjunction is not zero. *)
Definition has_flag (mode flag : Z) : bool := negb (Z.land mode flag =? 0)%Z.

(** [_out_matrix[i] = v] on the list of the array's entries (the code only
    writes indices 12 to 14 of a sixteen-entry array). *)
Fixpoint array_set {A : Type} (l : list A) (i : nat) (v : A) : list A :=
  match l, i with
  | [], _ => []
  | _ :: t, O => v :: t
  | h :: t, S j => h :: array_set t j v
  end.

Section Camera.

Context {F : Type} {SF : Scalar F}.
Local Open Scope float_scope.

Definition CAMERA_WORLD_FORWARD : Vec3 F := cm_init_vec3 f_0 f_0 f_1.
Definition CAMERA_WORLD_UP      : Vec3 F := cm_init_vec3 f_0 f_1 f_0.
Definition CAMERA_WORLD_RIGHT   : Vec3 F := cm_init_vec3 f_1 f_0 f_0.

Record Camera : Type := Build_Camera {
  target_position : Vec3 F;
  target_distance : F;
  orientation : Quat F;
  mode : Z;
  movement_accumulator : Vec3 F;
  rotation_accumulator : Vec3 F;
  minPitch : F;
  maxPitch : F;
  minYaw : F;
  maxYaw : F;
  minRoll : F;
  maxRoll : F
}.

(** Assignments to one member of the struct, or to one component of a
    vector. *)
Definition set_target_position (c : Camera) (v : Vec3 F) : Camera :=
  Build_Camera v (target_distance c) (orientation c) (mode c)
    (movement_accumulator c) (rotation_accumulator c)
    (minPitch c) (maxPitch c) (minYaw c) (maxYaw c) (minRoll c) (maxRoll c).

Definition set_orientation (c : Camera) (q : Quat F) : Camera :=
  Build_Camera (target_position c) (target_distance c) q (mode c)
    (movement_accumulator c) (rotation_accumulator c)
    (minPitch c) (maxPitch c) (minYaw c) (maxYaw c) (minRoll c) (maxRoll c).

Definition set_movement_accumulator (c : Camera) (v : Vec3 F) : Camera :=
  Build_Camera (target_position c) (target_distance c) (orientation c) (mode c)
    v (rotation_accumulator c)
    (minPitch c) (maxPitch c) (minYaw c) (maxYaw c) (minRoll c) (maxRoll c).

Definition set_rotation_accumulator (c : Camera) (v : Vec3 F) : Camera :=
  Build_Camera (target_position c) (target_distance c) (orientation c) (mode c)
    (movement_accumulator c) v
    (minPitch c) (maxPitch c) (minYaw c) (maxYaw c) (minRoll c) (maxRoll c).

Definition set_x (v : Vec3 F) (x : F) : Vec3 F := cm_init_vec3 x (vy v) (vz v).
Definition set_y (v : Vec3 F) (y : F) : Vec3 F := cm_init_vec3 (vx v) y (vz v).
Definition set_z (v : Vec3 F) (z : F) : Vec3 F := cm_init_vec3 (vx v) (vy v) z.

Definition camera_init : Camera :=
  {| target_position := cm_init_vec3 f_0 f_0 f_0;
     target_distance := f_0;
     orientation := cm_init_quat f_0 f_0 f_0 f_0;
     mode := CAMERA_MODE_FREE;
     movement_accumulator := cm_init_vec3 f_0 f_0 f_0;
     rotation_accumulator := cm_init_vec3 f_0 f_0 f_0;
     minPitch := f_0;
     maxPitch := f_0;
     minYaw := f_0;
     maxYaw := f_0;
     minRoll := f_0;
     maxRoll := f_0 |}.

Definition camera_forward (c : Camera) : Vec3 F :=
  cm_mul CAMERA_WORLD_FORWARD (cm_invert (orientation c)).

Definition camera_up (c : Camera) : Vec3 F :=
  cm_mul CAMERA_WORLD_UP (cm_invert (orientation c)).

Definition camera_right (c : Camera) : Vec3 F :=
  cm_mul CAMERA_WORLD_RIGHT (cm_invert (orientation c)).

Definition camera_eye (c : Camera) : Vec3 F :=
  cm_add (target_position c)
         (cm_scale (camera_forward c) (- target_distance c)).

Definition camera_move (c : Camera) (offset : Vec3 F) : Camera :=
  set_movement_accumulator c (cm_add (movement_accumulator c) offset).

Definition camera_rotate (c : Camera) (angles : Vec3 F) : Camera :=
  set_rotation_accumulator c (cm_add (rotation_accumulator c) angles).

Definition camera_look_at (c : Camera) (forward up : Vec3 F) : Camera :=
  let right := cm_normalizeVec3 (cm_cross up forward) in
  let up := cm_cross forward right in
  let m0 := vx right in
  let m1 := vy right in
  let m2 := vz right in
  let m4 := vx up in
  let m5 := vy up in
  let m6 := vz up in
  let m8 := vx forward in
  let m9 := vy forward in
  let m10 := vz forward in
  let trace := m0 + m5 + m10 in
  if trace >? f_0 then
    let s := f_0_5 / cm_sqrt (trace + f_1) in
    set_orientation c
      (cm_init_quat ((m6 - m9) * s) ((m8 - m2) * s) ((m1 - m4) * s)
                    (f_0_25 / s))
  else if (m0 >? m5) && (m0 >? m10) then
    let s := f_2 * cm_sqrt (f_1 + m0 - m5 - m10) in
    set_orientation c
      (cm_init_quat (f_0_25 * s) ((m4 + m1) / s) ((m8 + m2) / s)
                    ((m6 - m9) / s))
  else if m5 >? m10 then
    let s := f_2 * cm_sqrt (f_1 + m5 - m0 - m10) in
    set_orientation c
      (cm_init_quat ((m4 + m1) / s) (f_0_25 * s) ((m9 + m6) / s)
                    ((m8 - m2) / s))
  else
    let s := f_2 * cm_sqrt (f_1 + m10 - m0 - m5) in
    set_orientation c
      (cm_init_quat ((m8 + m2) / s) ((m9 + m6) / s) (f_0_25 * s)
                    ((m1 - m4) / s)).

(** *** [camera_view_matrix], block by block *)

(** [/* Clamp angles */] *)
Definition clamp_angles (c : Camera) : Camera :=
  if has_flag (mode c)
       (Z.lor (Z.lor CAMERA_MODE_CLAMP_PITCH_ANGLE CAMERA_MODE_CLAMP_YAW_ANGLE)
              CAMERA_MODE_CLAMP_ROLL_ANGLE)
  then
    let angles := cm_toEuler (orientation c) in
    let c :=
      if has_flag (mode c) CAMERA_MODE_CLAMP_PITCH_ANGLE then
        let c := set_rotation_accumulator c
                   (set_x (rotation_accumulator c)
                      (cm_max (minPitch c - vx angles)
                              (vx (rotation_accumulator c)))) in
        set_rotation_accumulator c
          (set_x (rotation_accumulator c)
             (cm_min (maxPitch c - vx angles) (vx (rotation_accumulator c))))
      else c in
    let c :=
      if has_flag (mode c) CAMERA_MODE_CLAMP_YAW_ANGLE then
        let c := set_rotation_accumulator c
                   (set_y (rotation_accumulator c)
                      (cm_max (minYaw c - vy angles)
                              (vy (rotation_accumulator c)))) in
        set_rotation_accumulator c
          (set_y (rotation_accumulator c)
             (cm_min (maxYaw c - vy angles) (vy (rotation_accumulator c))))
      else c in
    if has_flag (mode c) CAMERA_MODE_CLAMP_ROLL_ANGLE then
      let c := set_rotation_accumulator c
                 (set_z (rotation_accumulator c)
                    (cm_max (minRoll c - vz angles)
                            (vz (rotation_accumulator c)))) in
      set_rotation_accumulator c
        (set_z (rotation_accumulator c)
           (cm_min (maxRoll c - vz angles) (vz (rotation_accumulator c))))
    else c
  else c.

(** [/* Update orientation */], up to the re-normalization. *)
Definition compose_orientation (c : Camera) : Camera :=
  let pitch :=
    cm_fromAxisAngle CAMERA_WORLD_RIGHT (vx (rotation_accumulator c)) in
  let yaw :=
    cm_fromAxisAngle CAMERA_WORLD_UP (vy (rotation_accumulator c)) in
  if has_flag (mode c) CAMERA_MODE_DISABLE_ROLL then
    let c := set_orientation c (cm_mulQuat (orientation c) pitch) in
    set_orientation c (cm_mulQuat yaw (orientation c))
  else
    let roll :=
      cm_fromAxisAngle CAMERA_WORLD_FORWARD (vz (rotation_accumulator c)) in
    let c := set_orientation c (cm_mulQuat (orientation c) pitch) in
    let c := set_orientation c (cm_mulQuat (orientation c) yaw) in
    set_orientation c (cm_mulQuat (orientation c) roll).

(** The re-normalization and the reset of the rotation accumulator. *)
Definition renormalize_orientation (c : Camera) : Camera :=
  let c := set_orientation c (cm_normalizeQuat (orientation c)) in
  let c := set_rotation_accumulator c (set_x (rotation_accumulator c) f_0) in
  let c := set_rotation_accumulator c (set_y (rotation_accumulator c) f_0) in
  set_rotation_accumulator c (set_z (rotation_accumulator c) f_0).

(** The basis the movement is applied along: the camera's own, or with
    [CAMERA_MODE_MOVE_IN_WORLDPLANE] its projection into the world plane.
    The result is (forward, up, right). *)
Definition movement_basis (c : Camera) : Vec3 F * Vec3 F * Vec3 F :=
  let forward := camera_forward c in
  let up := camera_up c in
  let right := camera_right c in
  if has_flag (mode c) CAMERA_MODE_MOVE_IN_WORLDPLANE then
    let epsilon := f_0_0001 in
    let special :=
      if vy forward >? f_1 - epsilon then (cm_negate up, right)
      else if vy forward <? - f_1 + epsilon then (up, right)
      else if vy right >? f_1 - epsilon then (forward, up)
      else if vy right <? - f_1 + epsilon then (forward, cm_negate up)
      else (forward, right) in
    let forward := fst special in
    let right := snd special in
    let forward := set_y forward f_0 in
    let forward := cm_normalizeVec3 forward in
    let right := set_y right f_0 in
    let right := cm_normalizeVec3 right in
    let up := CAMERA_WORLD_UP in
    (forward, up, right)
  else (forward, up, right).

(** [/* Update target_position */] *)
Definition update_target_position (c : Camera) : Camera :=
  let basis := movement_basis c in
  let forward := fst (fst basis) in
  let up := snd (fst basis) in
  let right := snd basis in
  let forward := cm_scale forward (vx (movement_accumulator c)) in
  let up := cm_scale up (vy (movement_accumulator c)) in
  let right := cm_scale right (vz (movement_accumulator c)) in
  let c := set_target_position c (cm_add (target_position c) forward) in
  let c := set_target_position c (cm_add (target_position c) up) in
  let c := set_target_position c (cm_add (target_position c) right) in
  let c := set_movement_accumulator c (set_x (movement_accumulator c) f_0) in
  let c := set_movement_accumulator c (set_y (movement_accumulator c) f_0) in
  set_movement_accumulator c (set_z (movement_accumulator c) f_0).

(** [/* Generate view matrix */] *)
Definition generate_view_matrix (c : Camera) : list F :=
  let out_matrix := cm_matrixFromQuat (orientation c) in
  let translation := cm_negate (camera_eye c) in
  let translation := cm_mul translation (orientation c) in
  let out_matrix := array_set out_matrix 12 (vx translation) in
  let out_matrix := array_set out_matrix 13 (vy translation) in
  array_set out_matrix 14 (vz translation).

(** The camera after the call, and the matrix written to [_out_matrix]. *)
Definition camera_view_matrix (c : Camera) : Camera * list F :=
  let c := clamp_angles c in
  let c := compose_orientation c in
  let c := renormalize_orientation c in
  let c := update_target_position c in
  (c, generate_view_matrix c).

(** Calls made between two resolutions. *)
Inductive Command : Type :=
| Move (offset : Vec3 F)
| Rotate (angles : Vec3 F).

Definition run_command (c : Camera) (k : Command) : Camera :=
  match k with
  | Move offset => camera_move c offset
  | Rotate angles => camera_rotate c angles
  end.

Definition run_commands (c : Camera) (ks : list Command) : Camera :=
  fold_left run_command ks c.

End Camera.

Arguments Camera F : clear implicits.
Arguments Command F : clear implicits.

(** ** Exact arithmetic: [float] idealised as the real numbers *)

Definition R_ltb (a b : R) : bool := if Rlt_dec a b then true else false.

(** [atan2f] of [<math.h>] on the reals: the angle of the point [(x, y)]. *)
Definition R_atan2 (y x : R) : R :=
  if Rlt_dec 0 x then atan (y / x)
  else if Rlt_dec x 0 then
    if Rlt_dec y 0 then (atan (y / x) - PI)%R else (atan (y / x) + PI)%R
  else if Rlt_dec 0 y then (PI / 2)%R
  else if Rlt_dec y 0 then (- (PI / 2))%R
  else 0%R.

#[global] Instance R_scalar : Scalar R := {|
  f_0 := 0%R;
  f_1 := 1%R;
  f_2 := 2%R;
  f_0_5 := (/ 2)%R;
  f_0_25 := (/ 4)%R;
  f_0_0001 := (/ 10000)%R;
  fadd := Rplus;
  fsub := Rminus;
  fmul := Rmult;
  fdiv := Rdiv;
  fneg := Ropp;
  fltb := R_ltb;
  sinf := sin;
  cosf := cos;
  asinf := asin;
  sqrtf := sqrt;
  atan2f := R_atan2;
  powf := Rpower
|}.

(** ** IEEE 754 single precision *)

Module Binary32.

Definition prec : Z := 24.
Definition emax : Z := 128.

(** The functions of [<math.h>] the backend calls; they are not part of the
    repository, and nothing is assumed of them. *)
Record Libm : Type := {
  libm_sinf : spec_float -> spec_float;
  libm_cosf : spec_float -> spec_float;
  libm_asinf : spec_float -> spec_float;
  libm_atan2f : spec_float -> spec_float -> spec_float;
  libm_powf : spec_float -> spec_float -> spec_float
}.

Definition scalar (m : Libm) : Scalar spec_float := {|
  f_0 := S754_zero false;
  f_1 := S754_finite false 8388608 (-23);
  f_2 := S754_finite false 8388608 (-22);
  f_0_5 := S754_finite false 8388608 (-24);
  f_0_25 := S754_finite false 8388608 (-25);
  f_0_0001 := S754_finite false 13743895 (-37);
  fadd := SFadd prec emax;
  fsub := SFsub prec emax;
  fmul := SFmul prec emax;
  fdiv := SFdiv prec emax;
  fneg := SFopp;
  fltb := SFltb;
  sinf := libm_sinf m;
  cosf := libm_cosf m;
  asinf := libm_asinf m;
  sqrtf := SFsqrt prec emax;
  atan2f := libm_atan2f m;
  powf := libm_powf m
|}.

(** A float that is a zero of either sign or not a number. *)
Definition zero_or_nan (x : spec_float) : bool :=
  match x with
  | S754_zero _ | S754_nan => true
  | _ => false
  end.

Definition quat_zero_or_nan (q : Quat spec_float) : bool :=
  zero_or_nan (qx q) && zero_or_nan (qy q) && zero_or_nan (qz q)
  && zero_or_nan (qw q).

Definition is_nan (x : spec_float) : bool :=
  match x with
  | S754_nan => true
  | _ => false
  end.

Definition quat_has_nan (q : Quat spec_float) : bool :=
  is_nan (qx q) || is_nan (qy q) || is_nan (qz q) || is_nan (qw q).

(** [clamp(x, lo, hi)] on floats, with the comparison [<] of IEEE 754
    (false on a NaN). *)
Definition clamp32 (x lo hi : spec_float) : spec_float :=
  if SFltb x lo then lo else if SFltb hi x then hi else x.

(** A float that is [+0], a positive number or [+infinity]. *)
Definition nonneg_float (x : spec_float) : bool :=
  match x with
  | S754_zero false | S754_infinity false | S754_finite false _ _ => true
  | _ => false
  end.

End Binary32.

(** ** Vocabulary of the statements *)

(** The three clamp flags together, as the clamp block tests them. *)
Definition clamp_flags : Z :=
  Z.lor (Z.lor CAMERA_MODE_CLAMP_PITCH_ANGLE CAMERA_MODE_CLAMP_YAW_ANGLE)
        CAMERA_MODE_CLAMP_ROLL_ANGLE.

(** The three rotation axes, with the flag, the bounds and the component
    of a (pitch, yaw, roll) vector that belong to each. *)
Inductive Axis : Type := Pitch | Yaw | Roll.

Definition axis_flag (a : Axis) : Z :=
  match a with
  | Pitch => CAMERA_MODE_CLAMP_PITCH_ANGLE
  | Yaw => CAMERA_MODE_CLAMP_YAW_ANGLE
  | Roll => CAMERA_MODE_CLAMP_ROLL_ANGLE
  end.

Section Vocabulary.

Context {F : Type} {SF : Scalar F}.

Definition identity_quat : Quat F := cm_init_quat f_0 f_0 f_0 f_1.

Definition zero_quat : Quat F := cm_init_quat f_0 f_0 f_0 f_0.

Definition zero_vec3 : Vec3 F := cm_init_vec3 f_0 f_0 f_0.

(** The six clamp bounds. *)
Definition clamp_bounds (c : Camera F) : F * F * F * F * F * F :=
  (minPitch c, maxPitch c, minYaw c, maxYaw c, minRoll c, maxRoll c).

(** What the query functions read: everything but the two accumulators. *)
Definition resolved_state (c : Camera F) :=
  (target_position c, target_distance c, orientation c, mode c,
   clamp_bounds c).

Definition axis_min (a : Axis) (c : Camera F) : F :=
  match a with
  | Pitch => minPitch c
  | Yaw => minYaw c
  | Roll => minRoll c
  end.

Definition axis_max (a : Axis) (c : Camera F) : F :=
  match a with
  | Pitch => maxPitch c
  | Yaw => maxYaw c
  | Roll => maxRoll c
  end.

Definition axis_component (a : Axis) (v : Vec3 F) : F :=
  match a with
  | Pitch => vx v
  | Yaw => vy v
  | Roll => vz v
  end.

(** The delta quaternions [camera_view_matrix] builds from a rotation
    accumulator. *)
Definition pitch_quat (rot : Vec3 F) : Quat F :=
  cm_fromAxisAngle CAMERA_WORLD_RIGHT (vx rot).

Definition yaw_quat (rot : Vec3 F) : Quat F :=
  cm_fromAxisAngle CAMERA_WORLD_UP (vy rot).

Definition roll_quat (rot : Vec3 F) : Quat F :=
  cm_fromAxisAngle CAMERA_WORLD_FORWARD (vz rot).

End Vocabulary.

(** Over the reals. *)
Section RealVocabulary.

Local Open Scope R_scope.

(** The Hamilton product in its scalar and vector form:
    [(s, u)(t, v) = (s t - u.v, s v + t u + u x v)]. *)
Definition dot3 (u v : Vec3 R) : R := vx u * vx v + vy u * vy v + vz u * vz v.

Definition vector_part (q : Quat R) : Vec3 R :=
  cm_init_vec3 (qx q) (qy q) (qz q).

Definition hamilton (a b : Quat R) : Quat R :=
  let s := qw a in
  let t := qw b in
  let u := vector_part a in
  let v := vector_part b in
  let w := cm_add (cm_add (cm_scale v s) (cm_scale u t)) (cm_cross u v) in
  cm_init_quat (vx w) (vy w) (vz w) (s * t - dot3 u v).

(** [clamp(x, lo, hi)] as the words have it: [lo] below the interval, [hi]
    above it, [x] itself inside. *)
Definition clamp (x lo hi : R) : R :=
  if Rlt_dec x lo then lo else if Rlt_dec hi x then hi else x.


(** The quaternion [q] with every component multiplied by [k]. *)
Definition quat_scale (q : Quat R) (k : R) : Quat R :=
  cm_init_quat (qx q * k) (qy q * k) (qz q * k) (qw q * k).

(** Cameras for the worked examples: the target at the origin, every bound
    at minus or plus one radian. *)
Definition example_camera (m : Z) (o : Quat R) (rot mov : Vec3 R)
  : Camera R :=
  {| target_position := cm_init_vec3 0 0 0;
     target_distance := 0;
     orientation := o;
     mode := m;
     movement_accumulator := mov;
     rotation_accumulator := rot;
     minPitch := -1; maxPitch := 1;
     minYaw := -1; maxYaw := 1;
     minRoll := -1; maxRoll := 1 |}.

(** A unit quaternion that pitches the camera down by a little less than a
    quarter turn: its forward axis is [(0, -28560/28561, 239/28561)]. *)
Definition looking_down : Quat R := cm_init_quat (119 / 169) 0 0 (120 / 169).

(** The camera of the clamp boundary scenario: pitched a hundredth of a
    radian short of a quarter turn, a rotation by one radian pending. *)
Definition clamp_boundary_camera : Camera R :=
  {| target_position := cm_init_vec3 0 0 0;
     target_distance := 0;
     orientation := cm_fromAxisAngle CAMERA_WORLD_RIGHT (PI / 2 - / 100);
     mode := CAMERA_MODE_FIRST_PERSON;
     movement_accumulator := cm_init_vec3 0 0 0;
     rotation_accumulator := cm_init_vec3 1 0 0;
     minPitch := - (PI / 2); maxPitch := PI / 2;
     minYaw := 0; maxYaw := 0;
     minRoll := 0; maxRoll := 0 |}.

End RealVocabulary.

(** ** Further vocabulary *)

Section FurtherVocabulary.

Local Open Scope R_scope.

(** The difference of two points. *)
Definition vec3_minus (u v : Vec3 R) : Vec3 R := cm_add u (cm_negate v).

(** The point [(x, y, z, 1)] multiplied by the matrix held in the array
    [m], entry [m[4 j + i]] being the coefficient of the input's component
    [j] in the output's component [i] (the layout of [cm_matrixFromQuat],
    whose translation is [m[12]], [m[13]], [m[14]]). *)
Definition mtx_entry (m : list R) (i : nat) : R := nth i m 0.

Definition mtx_transform_point (m : list R) (p : Vec3 R) : Vec3 R :=
  cm_init_vec3
    (vx p * mtx_entry m 0 + vy p * mtx_entry m 4 + vz p * mtx_entry m 8
     + mtx_entry m 12)
    (vx p * mtx_entry m 1 + vy p * mtx_entry m 5 + vz p * mtx_entry m 9
     + mtx_entry m 13)
    (vx p * mtx_entry m 2 + vy p * mtx_entry m 6 + vz p * mtx_entry m 10
     + mtx_entry m 14).

(** A camera orbiting the point [(1, 2, 3)] at distance 5, looking down. *)
Definition orbit_camera : Camera R :=
  {| target_position := cm_init_vec3 1 2 3;
     target_distance := 5;
     orientation := looking_down;
     mode := CAMERA_MODE_ORBITAL;
     movement_accumulator := zero_vec3;
     rotation_accumulator := zero_vec3;
     minPitch := -1; maxPitch := 1;
     minYaw := 0; maxYaw := 0;
     minRoll := 0; maxRoll := 0 |}.


End FurtherVocabulary.

(** Single precision examples.  [zero_libm] answers every call of
    [<math.h>] with [+0]. *)
Definition zero_libm : Binary32.Libm :=
  {| Binary32.libm_sinf := fun _ => S754_zero false;
     Binary32.libm_cosf := fun _ => S754_zero false;
     Binary32.libm_asinf := fun _ => S754_zero false;
     Binary32.libm_atan2f := fun _ _ => S754_zero false;
     Binary32.libm_powf := fun _ _ => S754_zero false |}.

(** A camera with the pitch clamped to [[-1, 1]] and the accumulated pitch
    [x]. *)
Definition pitch_clamp_camera32 (x : spec_float) : Camera spec_float :=
  let zero := S754_zero false in
  let one := S754_finite false 8388608 (-23) in
  {| target_position := cm_init_vec3 zero zero zero;
     target_distance := zero;
     orientation := cm_init_quat zero zero zero one;
     mode := CAMERA_MODE_CLAMP_PITCH_ANGLE;
     movement_accumulator := cm_init_vec3 zero zero zero;
     rotation_accumulator := cm_init_vec3 x zero zero;
     minPitch := S754_finite true 8388608 (-23); maxPitch := one;
     minYaw := zero; maxYaw := zero;
     minRoll := zero; maxRoll := zero |}.

(** ** Frames, and the examples of the corrections *)

Section Frames.

Context {F : Type} {SF : Scalar F}.



End Frames.

Section CorrectionExamples.

Local Open Scope R_scope.


End CorrectionExamples.

(** The answers C's Annex F fixes for [<math.h>] at the special arguments
    the examples reach: [sinf(+-0) = +-0], [cosf(+-0) = 1],
    [asinf(+-0) = +-0], [atan2f(+-0, x) = +-0] for [x > 0] and
    [powf(+inf, y) = +0] for [y < 0]; a NaN elsewhere. *)
Definition annex_f_libm : Binary32.Libm :=
  {| Binary32.libm_sinf := fun x =>
       match x with S754_zero s => S754_zero s | _ => S754_nan end;
     Binary32.libm_cosf := fun x =>
       match x with
       | S754_zero _ => S754_finite false 8388608 (-23)
       | _ => S754_nan
       end;
     Binary32.libm_asinf := fun x =>
       match x with S754_zero s => S754_zero s | _ => S754_nan end;
     Binary32.libm_atan2f := fun y x =>
       match y, x with
       | S754_zero s, S754_finite false _ _ => S754_zero s
       | _, _ => S754_nan
       end;
     Binary32.libm_powf := fun x y =>
       match x, y with
       | S754_infinity false, S754_finite true _ _ => S754_zero false
       | _, _ => S754_nan
       end |}.


(** The quaternion [(2^-100, 0, 0, 0)], whose square is below the range of
    [float], and a quaternion with a NaN. *)
Definition tiny_quat32 : Quat spec_float :=
  cm_init_quat (S754_finite false 8388608 (-123)) (S754_zero false)
               (S754_zero false) (S754_zero false).

Definition nan_quat32 : Quat spec_float :=
  cm_init_quat S754_nan (S754_zero false) (S754_zero false) (S754_zero false).

(** A quaternion with every component multiplied by [k], in [float]. *)
Definition quat_scale32 (q : Quat spec_float) (k : spec_float)
  : Quat spec_float :=
  cm_init_quat (SFmul Binary32.prec Binary32.emax (qx q) k)
               (SFmul Binary32.prec Binary32.emax (qy q) k)
               (SFmul Binary32.prec Binary32.emax (qz q) k)
               (SFmul Binary32.prec Binary32.emax (qw q) k).

(** The arithmetic of [Binary32.scalar] with another operation [d] in the
    place of the division. *)
Definition scalar_with_div (m : Binary32.Libm)
    (d : spec_float -> spec_float -> spec_float) : Scalar spec_float :=
  let s := Binary32.scalar m in
  {| f_0 := @f_0 _ s; f_1 := @f_1 _ s; f_2 := @f_2 _ s;
     f_0_5 := @f_0_5 _ s; f_0_25 := @f_0_25 _ s; f_0_0001 := @f_0_0001 _ s;
     fadd := @fadd _ s; fsub := @fsub _ s; fmul := @fmul _ s;
     fdiv := d;
     fneg := @fneg _ s; fltb := @fltb _ s;
     sinf := @sinf _ s; cosf := @cosf _ s; asinf := @asinf _ s;
     sqrtf := @sqrtf _ s; atan2f := @atan2f _ s; powf := @powf _ s |}.

Unset Implicit Arguments.

(** * The mode bits *)

Lemma has_flag_clamp_flags (m : Z) :
  has_flag m clamp_flags =
  has_flag m CAMERA_MODE_CLAMP_PITCH_ANGLE
  || has_flag m CAMERA_MODE_CLAMP_YAW_ANGLE
  || has_flag m CAMERA_MODE_CLAMP_ROLL_ANGLE.
Proof.
  unfold has_flag, clamp_flags.
  rewrite !Z.land_lor_distr_r.
  destruct (Z.eqb_spec (Z.land m CAMERA_MODE_CLAMP_PITCH_ANGLE) 0)
    as [ -> | Hp ];
  destruct (Z.eqb_spec (Z.land m CAMERA_MODE_CLAMP_YAW_ANGLE) 0)
    as [ -> | Hy ];
  destruct (Z.eqb_spec (Z.land m CAMERA_MODE_CLAMP_ROLL_ANGLE) 0)
    as [ -> | Hr ];
  cbn [negb orb]; rewrite ?Z.lor_0_l, ?Z.lor_0_r;
  try reflexivity;
  match goal with
  | |- negb (?x =? 0)%Z = true =>
      destruct (Z.eqb_spec x 0) as [ E | _ ]; [ exfalso | reflexivity ]
  end;
  repeat match goal with
  | E : Z.lor _ _ = 0%Z |- _ => apply Z.lor_eq_0_iff in E; destruct E
  end; congruence.
Qed.

Lemma has_flag_axis_clamp_flags (m : Z) (ax : Axis) :
  has_flag m (axis_flag ax) = true -> has_flag m clamp_flags = true.
Proof.
  rewrite has_flag_clamp_flags.
  destruct ax; cbn [axis_flag]; intros ->; rewrite ?orb_true_r; reflexivity.
Qed.

Lemma has_flag_no_clamp (m : Z) :
  (forall ax, has_flag m (axis_flag ax) = false) ->
  has_flag m clamp_flags = false.
Proof.
  intros H. rewrite has_flag_clamp_flags.
  pose proof (H Pitch) as Hp. pose proof (H Yaw) as Hy.
  pose proof (H Roll) as Hr. cbn [axis_flag] in Hp, Hy, Hr.
  now rewrite Hp, Hy, Hr.
Qed.

(** * Properties that hold for every arithmetic *)

Section Structure.

Context {F : Type} {SF : Scalar F}.
Implicit Types (c : Camera F) (v : Vec3 F) (q : Quat F).

(** Splits on every mode test of a goal about [clamp_angles]. *)
Ltac clamp_cases c :=
  unfold clamp_angles;
  destruct (has_flag (mode c) (Z.lor _ _)); [ | try reflexivity ];
  cbn;
  destruct (has_flag (mode c) CAMERA_MODE_CLAMP_PITCH_ANGLE); cbn;
  destruct (has_flag (mode c) CAMERA_MODE_CLAMP_YAW_ANGLE); cbn;
  destruct (has_flag (mode c) CAMERA_MODE_CLAMP_ROLL_ANGLE); cbn.

Lemma clamp_angles_resolved_state c :
  resolved_state (clamp_angles c) = resolved_state c.
Proof. clamp_cases c; reflexivity. Qed.

Lemma clamp_angles_orientation c :
  orientation (clamp_angles c) = orientation c.
Proof.
  pose proof (clamp_angles_resolved_state c) as H.
  unfold resolved_state in H. congruence.
Qed.

Lemma clamp_angles_mode c : mode (clamp_angles c) = mode c.
Proof.
  pose proof (clamp_angles_resolved_state c) as H.
  unfold resolved_state in H. congruence.
Qed.

Lemma clamp_angles_movement c :
  movement_accumulator (clamp_angles c) = movement_accumulator c.
Proof. clamp_cases c; reflexivity. Qed.

(** Without any clamp flag the block is skipped. *)
Lemma clamp_angles_off c :
  has_flag (mode c) clamp_flags = false -> clamp_angles c = c.
Proof.
  intros H. unfold clamp_angles. unfold clamp_flags in H. now rewrite H.
Qed.

(** The component of an axis whose flag is set goes through [cm_max] and
    [cm_min]; the component of an axis whose flag is off is kept. *)
Lemma clamp_angles_component (ax : Axis) c :
  has_flag (mode c) (axis_flag ax) = true ->
  axis_component ax (rotation_accumulator (clamp_angles c)) =
  cm_min
    (fsub (axis_max ax c) (axis_component ax (cm_toEuler (orientation c))))
    (cm_max
       (fsub (axis_min ax c) (axis_component ax (cm_toEuler (orientation c))))
       (axis_component ax (rotation_accumulator c))).
Proof.
  intros Hax. pose proof (has_flag_axis_clamp_flags _ _ Hax) as Hany.
  unfold clamp_angles. unfold clamp_flags in Hany. rewrite Hany.
  destruct ax; cbn [axis_flag] in Hax; cbn;
    try rewrite Hax; cbn;
    destruct (has_flag (mode c) CAMERA_MODE_CLAMP_PITCH_ANGLE); cbn;
    destruct (has_flag (mode c) CAMERA_MODE_CLAMP_YAW_ANGLE); cbn;
    destruct (has_flag (mode c) CAMERA_MODE_CLAMP_ROLL_ANGLE); cbn;
    try discriminate; reflexivity.
Qed.

Lemma clamp_angles_component_off (ax : Axis) c :
  has_flag (mode c) (axis_flag ax) = false ->
  axis_component ax (rotation_accumulator (clamp_angles c)) =
  axis_component ax (rotation_accumulator c).
Proof.
  intros Hax. unfold clamp_angles.
  destruct (has_flag (mode c) (Z.lor _ _)); [ | reflexivity ].
  destruct ax; cbn [axis_flag] in Hax; cbn;
    try rewrite Hax; cbn;
    destruct (has_flag (mode c) CAMERA_MODE_CLAMP_PITCH_ANGLE); cbn;
    destruct (has_flag (mode c) CAMERA_MODE_CLAMP_YAW_ANGLE); cbn;
    destruct (has_flag (mode c) CAMERA_MODE_CLAMP_ROLL_ANGLE); cbn;
    try discriminate; reflexivity.
Qed.

Lemma compose_orientation_orientation c :
  let rot := rotation_accumulator c in
  orientation (compose_orientation c) =
  if has_flag (mode c) CAMERA_MODE_DISABLE_ROLL
  then cm_mulQuat (yaw_quat rot) (cm_mulQuat (orientation c) (pitch_quat rot))
  else cm_mulQuat
         (cm_mulQuat (cm_mulQuat (orientation c) (pitch_quat rot))
                     (yaw_quat rot))
         (roll_quat rot).
Proof.
  unfold compose_orientation.
  destruct (has_flag (mode c) CAMERA_MODE_DISABLE_ROLL); reflexivity.
Qed.

Lemma compose_orientation_frame c :
  target_position (compose_orientation c) = target_position c /\
  target_distance (compose_orientation c) = target_distance c /\
  mode (compose_orientation c) = mode c /\
  movement_accumulator (compose_orientation c) = movement_accumulator c /\
  rotation_accumulator (compose_orientation c) = rotation_accumulator c /\
  clamp_bounds (compose_orientation c) = clamp_bounds c.
Proof.
  unfold compose_orientation.
  destruct (has_flag (mode c) CAMERA_MODE_DISABLE_ROLL); cbn; auto 10.
Qed.

Lemma compose_orientation_mode c : mode (compose_orientation c) = mode c.
Proof. apply compose_orientation_frame. Qed.

Lemma renormalize_orientation_orientation c :
  orientation (renormalize_orientation c) = cm_normalizeQuat (orientation c).
Proof. reflexivity. Qed.

Lemma renormalize_orientation_mode c :
  mode (renormalize_orientation c) = mode c.
Proof. reflexivity. Qed.

Lemma update_target_position_target c :
  let basis := movement_basis c in
  target_position (update_target_position c) =
  cm_add
    (cm_add
       (cm_add (target_position c)
          (cm_scale (fst (fst basis)) (vx (movement_accumulator c))))
       (cm_scale (snd (fst basis)) (vy (movement_accumulator c))))
    (cm_scale (snd basis) (vz (movement_accumulator c))).
Proof. reflexivity. Qed.

(** The state after [camera_view_matrix], field by field. *)
Lemma view_matrix_orientation c :
  orientation (fst (camera_view_matrix c)) =
  cm_normalizeQuat (orientation (compose_orientation (clamp_angles c))).
Proof. reflexivity. Qed.

Lemma view_matrix_mode c : mode (fst (camera_view_matrix c)) = mode c.
Proof.
  cbn.
  destruct (compose_orientation_frame (clamp_angles c)) as (_ & _ & H & _).
  rewrite H. apply clamp_angles_mode.
Qed.

Lemma view_matrix_rotation_accumulator c :
  rotation_accumulator (fst (camera_view_matrix c)) = zero_vec3.
Proof. reflexivity. Qed.

Lemma view_matrix_matrix c :
  snd (camera_view_matrix c)
  = generate_view_matrix (fst (camera_view_matrix c)).
Proof. reflexivity. Qed.

Lemma view_matrix_queries c :
  let c1 := renormalize_orientation (compose_orientation (clamp_angles c)) in
  camera_forward (fst (camera_view_matrix c)) = camera_forward c1 /\
  camera_up (fst (camera_view_matrix c)) = camera_up c1 /\
  camera_right (fst (camera_view_matrix c)) = camera_right c1.
Proof.
  cbv zeta. unfold camera_forward, camera_up, camera_right.
  rewrite view_matrix_orientation. auto.
Qed.

Lemma view_matrix_target_position c :
  let c1 := renormalize_orientation (compose_orientation (clamp_angles c)) in
  let basis := movement_basis c1 in
  target_position (fst (camera_view_matrix c)) =
  cm_add
    (cm_add
       (cm_add (target_position c)
          (cm_scale (fst (fst basis)) (vx (movement_accumulator c))))
       (cm_scale (snd (fst basis)) (vy (movement_accumulator c))))
    (cm_scale (snd basis) (vz (movement_accumulator c))).
Proof.
  cbn zeta. unfold camera_view_matrix. cbn [fst].
  rewrite update_target_position_target. cbn zeta.
  destruct (compose_orientation_frame (clamp_angles c))
    as (Ht & _ & _ & Hm & _).
  pose proof (clamp_angles_resolved_state c) as Hr.
  unfold resolved_state in Hr.
  assert (target_position (clamp_angles c) = target_position c) as Ht'
    by congruence.
  cbn [renormalize_orientation target_position movement_accumulator
       set_orientation set_rotation_accumulator] in *.
  rewrite Ht, Ht', Hm, clamp_angles_movement. reflexivity.
Qed.

(** Replaying commands keeps what the queries read. *)
Lemma run_commands_resolved_state (ks : list (Command F)) c :
  resolved_state (run_commands c ks) = resolved_state c.
Proof.
  revert c. induction ks as [ | k ks IH ]; intros c; [ reflexivity | ].
  cbn. unfold run_commands in IH. rewrite IH. destruct k; reflexivity.
Qed.

Lemma resolved_state_queries c c' :
  resolved_state c' = resolved_state c ->
  camera_forward c' = camera_forward c /\
  camera_up c' = camera_up c /\
  camera_right c' = camera_right c /\
  camera_eye c' = camera_eye c.
Proof.
  unfold resolved_state. intros H.
  assert (orientation c' = orientation c) as Ho by congruence.
  assert (target_position c' = target_position c) as Ht by congruence.
  assert (target_distance c' = target_distance c) as Hd by congruence.
  unfold camera_eye, camera_forward, camera_up, camera_right.
  rewrite Ho, Ht, Hd. auto.
Qed.

(** The first resolution of a fresh camera composes the deltas onto the
    orientation [camera_init] stores, in the order of the mode
    [CAMERA_MODE_FREE]. *)
Lemma first_view_matrix_orientation (ks : list (Command F)) :
  let rot := rotation_accumulator (run_commands camera_init ks) in
  orientation (compose_orientation
                 (clamp_angles (run_commands camera_init ks))) =
  cm_mulQuat
    (cm_mulQuat (cm_mulQuat zero_quat (pitch_quat rot)) (yaw_quat rot))
    (roll_quat rot).
Proof.
  intros rot.
  pose proof (run_commands_resolved_state ks (@camera_init F SF)) as H.
  unfold resolved_state in H.
  assert (mode (run_commands camera_init ks) = 0%Z) as Hm
    by (transitivity (mode (@camera_init F SF)); [ congruence | reflexivity ]).
  assert (orientation (run_commands camera_init ks) = zero_quat) as Ho
    by (transitivity (orientation (@camera_init F SF));
        [ congruence | reflexivity ]).
  rewrite clamp_angles_off by (rewrite Hm; reflexivity).
  rewrite compose_orientation_orientation. cbn zeta.
  rewrite Hm, Ho. reflexivity.
Qed.

(** C6.  [camera_move] adds its argument to the movement accumulator and
    [camera_rotate] adds its argument to the rotation accumulator; each
    leaves every other field as it was.  Hence, whatever calls of the two
    are made, [camera_forward], [camera_up], [camera_right] and
    [camera_eye] return what they returned before them. *)
Theorem accumulation_is_deferred :
  (forall c v,
      movement_accumulator (camera_move c v)
      = cm_add (movement_accumulator c) v /\
      rotation_accumulator (camera_move c v) = rotation_accumulator c /\
      resolved_state (camera_move c v) = resolved_state c) /\
  (forall c v,
      rotation_accumulator (camera_rotate c v)
      = cm_add (rotation_accumulator c) v /\
      movement_accumulator (camera_rotate c v) = movement_accumulator c /\
      resolved_state (camera_rotate c v) = resolved_state c) /\
  (forall c (ks : list (Command F)),
      camera_forward (run_commands c ks) = camera_forward c /\
      camera_up (run_commands c ks) = camera_up c /\
      camera_right (run_commands c ks) = camera_right c /\
      camera_eye (run_commands c ks) = camera_eye c).
Proof.
  split; [ | split ].
  - intros c v. repeat split.
  - intros c v. repeat split.
  - intros c ks. apply resolved_state_queries, run_commands_resolved_state.
Qed.

(** C8.  After [camera_view_matrix] both accumulators are the zero vector,
    and the mode, the target distance and the six clamp bounds are what
    they were: only the orientation, the target position and the two
    accumulators are written. *)
Theorem view_matrix_resets_accumulators c :
  rotation_accumulator (fst (camera_view_matrix c)) = zero_vec3 /\
  movement_accumulator (fst (camera_view_matrix c)) = zero_vec3 /\
  mode (fst (camera_view_matrix c)) = mode c /\
  target_distance (fst (camera_view_matrix c)) = target_distance c /\
  clamp_bounds (fst (camera_view_matrix c)) = clamp_bounds c.
Proof.
  split; [ reflexivity | ].
  split; [ reflexivity | ].
  split; [ apply view_matrix_mode | ].
  destruct (compose_orientation_frame (clamp_angles c))
    as (_ & Hd & _ & _ & _ & Hb).
  pose proof (clamp_angles_resolved_state c) as Hr.
  unfold resolved_state in Hr.
  split.
  - change (target_distance (fst (camera_view_matrix c)))
      with (target_distance (compose_orientation (clamp_angles c))).
    rewrite Hd. congruence.
  - change (clamp_bounds (fst (camera_view_matrix c)))
      with (clamp_bounds (compose_orientation (clamp_angles c))).
    rewrite Hb. congruence.
Qed.

End Structure.

(** * Exact arithmetic *)

Section RealArithmetic.

Local Open Scope R_scope.
Implicit Types (c : Camera R) (v : Vec3 R) (q a b : Quat R).

Lemma R_ltb_lt x y : R_ltb x y = true <-> x < y.
Proof.
  unfold R_ltb. destruct (Rlt_dec x y); split; intros; auto; discriminate.
Qed.

Lemma R_ltb_ge x y : R_ltb x y = false <-> y <= x.
Proof.
  unfold R_ltb.
  destruct (Rlt_dec x y); split; intros; auto; try discriminate; lra.
Qed.

Lemma quat_ext a b :
  qx a = qx b -> qy a = qy b -> qz a = qz b -> qw a = qw b -> a = b.
Proof. destruct a, b; cbn; intros; subst; reflexivity. Qed.

Lemma vec3_ext (u v : Vec3 R) :
  vx u = vx v -> vy u = vy v -> vz u = vz v -> u = v.
Proof. destruct u, v; cbn; intros; subst; reflexivity. Qed.

Lemma cm_add_zero_l v : cm_add zero_vec3 v = v.
Proof. apply vec3_ext; cbn; ring. Qed.

(** [cm_mulQuat] is the Hamilton product. *)
Lemma cm_mulQuat_hamilton a b : cm_mulQuat a b = hamilton a b.
Proof. apply quat_ext; cbn; unfold dot3; cbn; ring. Qed.

(** The multiplication table of the units [i], [j], [k]. *)
Lemma cm_mulQuat_units :
  let i := cm_init_quat 1 0 0 0 in
  let j := cm_init_quat 0 1 0 0 in
  let k := cm_init_quat 0 0 1 0 in
  let minus_one := cm_init_quat 0 0 0 (-1) in
  cm_mulQuat i j = k /\ cm_mulQuat j k = i /\ cm_mulQuat k i = j /\
  cm_mulQuat i i = minus_one /\ cm_mulQuat j j = minus_one /\
  cm_mulQuat k k = minus_one.
Proof. cbn. repeat split; apply quat_ext; cbn; ring. Qed.

Lemma cm_mulQuat_assoc a b d :
  cm_mulQuat (cm_mulQuat a b) d = cm_mulQuat a (cm_mulQuat b d).
Proof. apply quat_ext; cbn; ring. Qed.

Lemma cm_mulQuat_1_r a : cm_mulQuat a identity_quat = a.
Proof. apply quat_ext; cbn; ring. Qed.

Lemma cm_mulQuat_1_l a : cm_mulQuat identity_quat a = a.
Proof. apply quat_ext; cbn; ring. Qed.

Lemma cm_mulQuat_0_l a : cm_mulQuat zero_quat a = zero_quat.
Proof. apply quat_ext; cbn; ring. Qed.

Lemma quat_norm2_mul a b :
  quat_norm2 (cm_mulQuat a b) = quat_norm2 a * quat_norm2 b.
Proof. unfold quat_norm2; cbn; ring. Qed.

Lemma quat_norm2_identity : quat_norm2 (@identity_quat R _) = 1.
Proof. unfold quat_norm2; cbn; ring. Qed.

Lemma quat_norm2_scale q k :
  quat_norm2 (quat_scale q k) = quat_norm2 q * (k * k).
Proof. unfold quat_norm2; cbn; ring. Qed.

(** Axis-angle quaternions. *)
Lemma cm_fromAxisAngle_0 (axis : Vec3 R) :
  cm_fromAxisAngle axis 0 = identity_quat.
Proof.
  apply quat_ext; cbn; rewrite Rmult_0_l; rewrite ?sin_0, ?cos_0; ring.
Qed.

Lemma pitch_quat_no_pitch (y z : R) :
  pitch_quat (cm_init_vec3 0 y z) = identity_quat.
Proof. apply cm_fromAxisAngle_0. Qed.

Lemma yaw_quat_no_yaw (x z : R) :
  yaw_quat (cm_init_vec3 x 0 z) = identity_quat.
Proof. apply cm_fromAxisAngle_0. Qed.

Lemma sin2_cos2_sum x : sin x * sin x + cos x * cos x = 1.
Proof. pose proof (sin2_cos2 x) as H. unfold Rsqr in H. exact H. Qed.

Lemma pitch_quat_unit (rot : Vec3 R) : quat_norm2 (pitch_quat rot) = 1.
Proof.
  unfold quat_norm2; cbn.
  pose proof (sin2_cos2_sum (vx rot * / 2)). nra.
Qed.

Lemma yaw_quat_unit (rot : Vec3 R) : quat_norm2 (yaw_quat rot) = 1.
Proof.
  unfold quat_norm2; cbn.
  pose proof (sin2_cos2_sum (vy rot * / 2)). nra.
Qed.

Lemma roll_quat_unit (rot : Vec3 R) : quat_norm2 (roll_quat rot) = 1.
Proof.
  unfold quat_norm2; cbn.
  pose proof (sin2_cos2_sum (vz rot * / 2)). nra.
Qed.

(** [powf(norm, -0.5f)] is the inverse of the square root. *)
Lemma Rpower_minus_half x : 0 < x -> Rpower x (- / 2) = / sqrt x.
Proof. intros Hx. now rewrite Rpower_Ropp, Rpower_sqrt. Qed.

Lemma cm_normalizeQuat_pos q :
  0 < quat_norm2 q ->
  cm_normalizeQuat q = quat_scale q (/ sqrt (quat_norm2 q)).
Proof.
  intros H. unfold cm_normalizeQuat. cbn -[quat_norm2].
  apply R_ltb_lt in H. rewrite H.
  apply R_ltb_lt in H. rewrite Rpower_minus_half by assumption. reflexivity.
Qed.

Lemma cm_normalizeQuat_nonpos q :
  quat_norm2 q <= 0 -> cm_normalizeQuat q = identity_quat.
Proof.
  intros H. unfold cm_normalizeQuat. cbn -[quat_norm2].
  apply R_ltb_ge in H. now rewrite H.
Qed.

Lemma cm_normalizeQuat_norm2 q : quat_norm2 (cm_normalizeQuat q) = 1.
Proof.
  destruct (Rlt_dec 0 (quat_norm2 q)) as [ Hpos | Hneg ].
  - rewrite cm_normalizeQuat_pos by assumption. rewrite quat_norm2_scale.
    pose proof (sqrt_lt_R0 _ Hpos) as Hs.
    pose proof (sqrt_sqrt (quat_norm2 q) (Rlt_le _ _ Hpos)) as Hss.
    rewrite <- Hss at 1. field. lra.
  - rewrite cm_normalizeQuat_nonpos by lra. apply quat_norm2_identity.
Qed.

Lemma cm_normalizeQuat_unit q : quat_norm2 q = 1 -> cm_normalizeQuat q = q.
Proof.
  intros H. rewrite cm_normalizeQuat_pos by lra.
  rewrite H, sqrt_1. apply quat_ext; cbn; field.
Qed.

(** The clamp of one axis, in the order the block applies [cm_max] and
    [cm_min]. *)
Lemma cm_min_max_clamp (x lo hi : R) :
  lo <= hi -> cm_min hi (cm_max lo x) = clamp x lo hi.
Proof.
  intros H. unfold cm_min, cm_max, clamp. cbn. unfold R_ltb.
  repeat destruct (Rlt_dec _ _); lra.
Qed.

(** Without roll and without clamping, a unit orientation is composed with
    the two deltas and stays as composed: the re-normalization changes
    nothing. *)
Lemma view_matrix_no_roll_unit c :
  has_flag (mode c) CAMERA_MODE_DISABLE_ROLL = true ->
  (forall ax, has_flag (mode c) (axis_flag ax) = false) ->
  quat_norm2 (orientation c) = 1 ->
  orientation (fst (camera_view_matrix c)) =
  cm_mulQuat (yaw_quat (rotation_accumulator c))
    (cm_mulQuat (orientation c) (pitch_quat (rotation_accumulator c))).
Proof.
  intros Hroll Hclamp Hunit.
  rewrite view_matrix_orientation.
  rewrite clamp_angles_off by (apply has_flag_no_clamp; assumption).
  rewrite compose_orientation_orientation. cbn zeta. rewrite Hroll.
  apply cm_normalizeQuat_unit.
  rewrite !quat_norm2_mul, yaw_quat_unit, pitch_quat_unit, Hunit. ring.
Qed.

(** The resolution of a rotation [angles] put into an empty accumulator. *)
Lemma view_matrix_no_roll_rotate c (angles : Vec3 R) :
  has_flag (mode c) CAMERA_MODE_DISABLE_ROLL = true ->
  (forall ax, has_flag (mode c) (axis_flag ax) = false) ->
  quat_norm2 (orientation c) = 1 ->
  rotation_accumulator c = zero_vec3 ->
  orientation (fst (camera_view_matrix (camera_rotate c angles))) =
  cm_mulQuat (yaw_quat angles)
    (cm_mulQuat (orientation c) (pitch_quat angles)).
Proof.
  intros Hroll Hclamp Hunit Hrot.
  rewrite view_matrix_no_roll_unit;
    [ | exact Hroll | exact Hclamp | exact Hunit ].
  cbn [camera_rotate rotation_accumulator set_rotation_accumulator
       orientation].
  rewrite Hrot, cm_add_zero_l. reflexivity.
Qed.

(** With nothing to rotate and no clamping, a unit orientation is kept. *)
Lemma view_matrix_idle_orientation c :
  rotation_accumulator c = zero_vec3 ->
  (forall ax, has_flag (mode c) (axis_flag ax) = false) ->
  quat_norm2 (orientation c) = 1 ->
  orientation (fst (camera_view_matrix c)) = orientation c.
Proof.
  intros Hrot Hclamp Hunit.
  rewrite view_matrix_orientation.
  rewrite clamp_angles_off by (apply has_flag_no_clamp; assumption).
  rewrite compose_orientation_orientation. cbn zeta. rewrite Hrot.
  assert (pitch_quat (@zero_vec3 R _) = identity_quat) as ->
    by apply (cm_fromAxisAngle_0 CAMERA_WORLD_RIGHT).
  assert (yaw_quat (@zero_vec3 R _) = identity_quat) as ->
    by apply (cm_fromAxisAngle_0 CAMERA_WORLD_UP).
  assert (roll_quat (@zero_vec3 R _) = identity_quat) as ->
    by apply (cm_fromAxisAngle_0 CAMERA_WORLD_FORWARD).
  destruct (has_flag (mode c) CAMERA_MODE_DISABLE_ROLL);
    rewrite ?cm_mulQuat_1_r, ?cm_mulQuat_1_l;
    apply cm_normalizeQuat_unit; assumption.
Qed.

(** The axes of a unit orientation: each has length one, and the vertical
    components of the three are a unit vector too. *)
Lemma camera_forward_unit c :
  quat_norm2 (orientation c) = 1 ->
  vx (camera_forward c) * vx (camera_forward c)
  + vy (camera_forward c) * vy (camera_forward c)
  + vz (camera_forward c) * vz (camera_forward c) = 1.
Proof.
  intros H.
  transitivity (quat_norm2 (orientation c) * quat_norm2 (orientation c)).
  - unfold quat_norm2. cbn. ring.
  - rewrite H. ring.
Qed.

Lemma camera_up_unit c :
  quat_norm2 (orientation c) = 1 ->
  vx (camera_up c) * vx (camera_up c) + vy (camera_up c) * vy (camera_up c)
  + vz (camera_up c) * vz (camera_up c) = 1.
Proof.
  intros H.
  transitivity (quat_norm2 (orientation c) * quat_norm2 (orientation c)).
  - unfold quat_norm2. cbn. ring.
  - rewrite H. ring.
Qed.

Lemma camera_axes_vertical c :
  quat_norm2 (orientation c) = 1 ->
  vy (camera_right c) * vy (camera_right c)
  + vy (camera_up c) * vy (camera_up c)
  + vy (camera_forward c) * vy (camera_forward c) = 1.
Proof.
  intros H.
  transitivity (quat_norm2 (orientation c) * quat_norm2 (orientation c)).
  - unfold quat_norm2. cbn. ring.
  - rewrite H. ring.
Qed.

(** A vector with a horizontal part, flattened and normalized, is a
    horizontal unit vector. *)
Lemma flatten_normalize v :
  0 < vx v * vx v + vz v * vz v ->
  let w := cm_normalizeVec3 (set_y v 0) in
  vy w = 0 /\ vx w * vx w + vz w * vz w = 1.
Proof.
  intros Hpos. destruct v as [ x y z ]. cbn in *.
  replace (x * x + 0 * 0 + z * z) with (x * x + z * z) by ring.
  pose proof (sqrt_lt_R0 _ Hpos) as Hh.
  pose proof (sqrt_sqrt _ (Rlt_le _ _ Hpos)) as Hhh.
  set (h := sqrt (x * x + z * z)) in *.
  split; [ ring | ].
  replace (x * (1 / h) * (x * (1 / h)) + z * (1 / h) * (z * (1 / h)))
    with ((x * x + z * z) / (h * h)) by (field; lra).
  rewrite Hhh. field. lra.
Qed.

(** Looking straight down, the second special case applies: the up axis
    stands in for the forward axis. *)
Lemma movement_basis_looking_down c :
  has_flag (mode c) CAMERA_MODE_MOVE_IN_WORLDPLANE = true ->
  vy (camera_forward c) < -1 + / 10000 ->
  movement_basis c =
  (cm_normalizeVec3 (set_y (camera_up c) 0), CAMERA_WORLD_UP,
   cm_normalizeVec3 (set_y (camera_right c) 0)).
Proof.
  intros Hflag Hdown. unfold movement_basis. rewrite Hflag. cbn zeta.
  change (fltb (f_1 - f_0_0001)%fl (vy (camera_forward c)))
    with (R_ltb (1 - / 10000) (vy (camera_forward c))).
  change (fltb (vy (camera_forward c)) (- f_1 + f_0_0001)%fl)
    with (R_ltb (vy (camera_forward c)) (- 1 + / 10000)).
  replace (R_ltb (1 - / 10000) (vy (camera_forward c))) with false
    by (symmetry; apply R_ltb_ge; lra).
  replace (R_ltb (vy (camera_forward c)) (- 1 + / 10000)) with true
    by (symmetry; apply R_ltb_lt; lra).
  reflexivity.
Qed.

(** With [CAMERA_MODE_MOVE_IN_WORLDPLANE] the forward direction of the
    movement is a horizontal unit vector, whatever the unit orientation. *)
Lemma movement_basis_forward_horizontal c :
  has_flag (mode c) CAMERA_MODE_MOVE_IN_WORLDPLANE = true ->
  quat_norm2 (orientation c) = 1 ->
  let w := fst (fst (movement_basis c)) in
  vy w = 0 /\ vx w * vx w + vz w * vz w = 1.
Proof.
  intros Hflag Hunit.
  pose proof (camera_forward_unit c Hunit) as Hf.
  pose proof (camera_up_unit c Hunit) as Hu.
  pose proof (camera_axes_vertical c Hunit) as Hv.
  unfold movement_basis. rewrite Hflag. cbv zeta.
  change (fltb (f_1 - f_0_0001)%fl (vy (camera_forward c)))
    with (R_ltb (1 - / 10000) (vy (camera_forward c))).
  change (fltb (vy (camera_forward c)) (- f_1 + f_0_0001)%fl)
    with (R_ltb (vy (camera_forward c)) (- 1 + / 10000)).
  pose proof (Rle_0_sqr (vy (camera_right c))) as Hr. unfold Rsqr in Hr.
  revert Hf Hu Hv Hr.
  generalize (camera_forward c) (camera_up c) (camera_right c).
  intros [ fx fy fz ] [ ux uy uz ] [ rx ry rz ]. cbn [vx vy vz].
  intros Hf Hu Hv Hr.
  destruct (R_ltb (1 - / 10000) fy) eqn:Eup.
  { apply R_ltb_lt in Eup. cbn [fst snd].
    apply flatten_normalize. cbn.
    assert (uy * uy < 1) by nra. nra. }
  destruct (R_ltb fy (- 1 + / 10000)) eqn:Edown.
  { apply R_ltb_lt in Edown. cbn [fst snd].
    apply flatten_normalize. cbn.
    assert (uy * uy < 1) by nra. nra. }
  apply R_ltb_ge in Eup, Edown.
  assert (0 < fx * fx + fz * fz) as Hpos by nra.
  destruct (fltb _ _); [ | destruct (fltb _ _) ]; cbn [fst snd];
    apply flatten_normalize; exact Hpos.
Qed.

End RealArithmetic.

(** * Single precision *)

Module Binary32Facts.
Import Binary32.

Lemma zero_or_nan_mul_l x y :
  zero_or_nan x = true -> zero_or_nan (SFmul prec emax x y) = true.
Proof. destruct x, y; cbn; intros; congruence. Qed.

Lemma zero_or_nan_mul_r x y :
  zero_or_nan y = true -> zero_or_nan (SFmul prec emax x y) = true.
Proof. destruct x, y; cbn; intros; congruence. Qed.

Lemma zero_or_nan_add x y :
  zero_or_nan x = true -> zero_or_nan y = true ->
  zero_or_nan (SFadd prec emax x y) = true.
Proof.
  destruct x as [ [ | ] | | | ], y as [ [ | ] | | | ]; cbn; intros; congruence.
Qed.

Lemma zero_or_nan_sub x y :
  zero_or_nan x = true -> zero_or_nan y = true ->
  zero_or_nan (SFsub prec emax x y) = true.
Proof.
  destruct x as [ [ | ] | | | ], y as [ [ | ] | | | ]; cbn; intros; congruence.
Qed.

Lemma zero_or_nan_not_positive x :
  zero_or_nan x = true -> SFltb (S754_zero false) x = false.
Proof. destruct x; cbn; intros; congruence. Qed.

(** The sum of squares [cm_normalizeQuat] computes is never negative, and
    is a NaN only when a component is. *)
Lemma shr_1_nonneg mrs : (0 <= shr_m mrs)%Z -> (0 <= shr_m (shr_1 mrs))%Z.
Proof.
  destruct mrs as [ m r s ]. cbn [shr_m].
  destruct m as [ | [ p | p | ] | p ]; cbn; lia.
Qed.

Lemma iter_pos_shr_1_nonneg p mrs :
  (0 <= shr_m mrs)%Z -> (0 <= shr_m (iter_pos shr_1 p mrs))%Z.
Proof.
  revert mrs. induction p as [ p IH | p IH | ]; intros mrs H; cbn.
  - apply IH, IH, shr_1_nonneg, H.
  - apply IH, IH, H.
  - apply shr_1_nonneg, H.
Qed.

Lemma shr_fexp_nonneg m e l :
  (0 <= m)%Z -> (0 <= shr_m (fst (shr_fexp prec emax m e l)))%Z.
Proof.
  intros H. unfold shr_fexp, shr.
  assert (0 <= shr_m (shr_record_of_loc m l))%Z as H0
    by (destruct l as [ | [ | | ] ]; exact H).
  destruct (_ - e)%Z; cbn [fst]; auto using iter_pos_shr_1_nonneg.
Qed.

Lemma round_nearest_even_nonneg m l :
  (0 <= m)%Z -> (0 <= round_nearest_even m l)%Z.
Proof.
  intros H. unfold round_nearest_even.
  destruct l as [ | [ | | ] ]; try destruct (Z.even m); lia.
Qed.

Lemma binary_round_aux_nonneg m e l :
  (0 <= m)%Z ->
  nonneg_float (binary_round_aux prec emax false m e l) = true.
Proof.
  intros H. unfold binary_round_aux.
  pose proof (shr_fexp_nonneg m e l H) as H1.
  destruct (shr_fexp prec emax m e l) as [ mrs' e' ]. cbn [fst] in H1.
  pose proof (shr_fexp_nonneg _ e' loc_Exact
                (round_nearest_even_nonneg _ (loc_of_shr_record mrs') H1))
    as H2.
  destruct (shr_fexp prec emax _ e' loc_Exact) as [ mrs'' e'' ].
  cbn [fst] in H2.
  destruct (shr_m mrs'') as [ | p | p ]; [ reflexivity | | lia ].
  destruct (e'' <=? emax - prec)%Z; reflexivity.
Qed.

Lemma square_nonneg x :
  is_nan x = false -> nonneg_float (SFmul prec emax x x) = true.
Proof.
  destruct x as [ [ | ] | [ | ] | | s m e ]; try reflexivity; try discriminate.
  intros _. unfold SFmul. rewrite xorb_nilpotent.
  apply binary_round_aux_nonneg. lia.
Qed.

Lemma add_nonneg x y :
  nonneg_float x = true -> nonneg_float y = true ->
  nonneg_float (SFadd prec emax x y) = true.
Proof.
  destruct x as [ [ | ] | [ | ] | | [ | ] mx ex ];
    destruct y as [ [ | ] | [ | ] | | [ | ] my ey ];
    try discriminate; try reflexivity.
  intros _ _. unfold SFadd, binary_normalize, cond_Zopp.
  destruct (Z.pos _ + Z.pos _)%Z as [ | p | p ] eqn:E; [ reflexivity | | lia ].
  unfold binary_round.
  destruct (shl_align p _ _) as [ mz ez ].
  apply binary_round_aux_nonneg. lia.
Qed.

(** The comparison of floats is antisymmetric, so [lo <= hi] excludes
    [hi < lo]. *)
Lemma SFcompare_antisym x y :
  SFcompare y x = option_map CompOpp (SFcompare x y).
Proof.
  destruct x as [ [ | ] | [ | ] | | [ | ] mx ex ];
    destruct y as [ [ | ] | [ | ] | | [ | ] my ey ];
    try reflexivity; cbn;
    rewrite (Z.compare_antisym ex ey);
    destruct (ex ?= ey)%Z; cbn; try reflexivity;
    rewrite (Pos.compare_cont_antisym mx my Eq); reflexivity.
Qed.

Lemma SFleb_not_SFltb x y : SFleb x y = true -> SFltb y x = false.
Proof.
  unfold SFleb, SFltb. rewrite (SFcompare_antisym x y).
  destruct (SFcompare x y) as [ [ | | ] | ]; cbn; congruence.
Qed.

Create HintDb zero_or_nan.

#[local] Hint Resolve zero_or_nan_mul_l zero_or_nan_mul_r zero_or_nan_add
  zero_or_nan_sub : zero_or_nan.

Section WithLibm.

Variable m : Libm.

(** A product whose left factor has only zeros and NaNs has only zeros and
    NaNs. *)
Lemma quat_zero_or_nan_mul_l (a b : Quat spec_float) :
  quat_zero_or_nan a = true ->
  quat_zero_or_nan (@cm_mulQuat _ (scalar m) a b) = true.
Proof.
  unfold quat_zero_or_nan. intros H.
  apply andb_prop in H; destruct H as [ H Hw ].
  apply andb_prop in H; destruct H as [ H Hz ].
  apply andb_prop in H; destruct H as [ Hx Hy ].
  cbn -[SFmul SFadd SFsub].
  repeat (apply andb_true_intro; split); auto 10 with zero_or_nan.
Qed.

(** Its sum of squares is a zero or a NaN, and [0.0f < norm] is false. *)
Lemma cm_normalizeQuat_zero_or_nan (q : Quat spec_float) :
  quat_zero_or_nan q = true ->
  @cm_normalizeQuat _ (scalar m) q = @identity_quat _ (scalar m).
Proof.
  unfold quat_zero_or_nan. intros H.
  apply andb_prop in H; destruct H as [ H Hw ].
  apply andb_prop in H; destruct H as [ H Hz ].
  apply andb_prop in H; destruct H as [ Hx Hy ].
  unfold cm_normalizeQuat, quat_norm2. cbn -[SFmul SFadd SFsub].
  rewrite zero_or_nan_not_positive; [ reflexivity | ].
  auto 10 with zero_or_nan.
Qed.

Lemma quat_norm2_nonneg_float (q : Quat spec_float) :
  quat_has_nan q = false ->
  nonneg_float (@quat_norm2 _ (scalar m) q) = true.
Proof.
  unfold quat_has_nan. intros H.
  apply orb_false_elim in H; destruct H as [ H Hw ].
  apply orb_false_elim in H; destruct H as [ H Hz ].
  apply orb_false_elim in H; destruct H as [ Hx Hy ].
  unfold quat_norm2. cbn -[SFmul SFadd].
  auto using add_nonneg, square_nonneg.
Qed.

(** In single precision, for a quaternion without NaN, [cm_normalizeQuat]
    returns the identity when the sum of squares is not above zero, and
    otherwise the components multiplied by [powf(norm, -0.5f)]; no
    division is evaluated. *)
Lemma cm_normalizeQuat_binary32 (q : Quat spec_float) :
  quat_has_nan q = false ->
  let norm := @quat_norm2 _ (scalar m) q in
  let invNorm := libm_powf m norm (SFopp (@f_0_5 _ (scalar m))) in
  (SFleb norm (S754_zero false) = true ->
   @cm_normalizeQuat _ (scalar m) q = @identity_quat _ (scalar m)) /\
  (SFleb norm (S754_zero false) = false ->
   @cm_normalizeQuat _ (scalar m) q =
   cm_init_quat (SFmul prec emax (qx q) invNorm)
                (SFmul prec emax (qy q) invNorm)
                (SFmul prec emax (qz q) invNorm)
                (SFmul prec emax (qw q) invNorm)).
Proof.
  intros Hq norm invNorm.
  pose proof (quat_norm2_nonneg_float q Hq) as Hn. fold norm in Hn.
  unfold cm_normalizeQuat. cbn -[SFmul SFadd quat_norm2].
  fold norm. fold invNorm.
  destruct norm as [ [ | ] | [ | ] | | [ | ] mn en ]; try discriminate;
    split; intros H; try discriminate; reflexivity.
Qed.

(** The clamp of one axis in single precision, the interval being
    ordered. *)
Lemma cm_min_max_clamp32 (x lo hi : spec_float) :
  SFleb lo hi = true ->
  @cm_min _ (scalar m) hi (@cm_max _ (scalar m) lo x) = clamp32 x lo hi.
Proof.
  intros H. unfold cm_min, cm_max, clamp32. cbn -[SFltb].
  destruct (SFltb x lo) eqn:E1.
  - now rewrite (SFleb_not_SFltb _ _ H).
  - reflexivity.
Qed.

(** The embedding computes: two moves add up, and the units multiply as
    [i j = k]. *)
Example binary32_accumulate :
  let half := @f_0_5 _ (scalar m) in
  let one := @f_1 _ (scalar m) in
  let two := @f_2 _ (scalar m) in
  let c := @camera_move _ (scalar m)
             (@camera_move _ (scalar m) (@camera_init _ (scalar m))
                (cm_init_vec3 half one half))
             (cm_init_vec3 half one half) in
  movement_accumulator c = cm_init_vec3 one two one /\
  @camera_forward _ (scalar m) c = @zero_vec3 _ (scalar m).
Proof. split; reflexivity. Qed.

Example binary32_cm_mulQuat_units :
  let O := S754_zero false in
  let I := @f_1 _ (scalar m) in
  @cm_mulQuat _ (scalar m) (cm_init_quat I O O O) (cm_init_quat O I O O)
  = cm_init_quat O O I O.
Proof. reflexivity. Qed.

End WithLibm.

End Binary32Facts.

(** * Three scenarios *)

Section Scenarios.
Local Open Scope R_scope.
Implicit Types (c : Camera R).

(** Looking along the world forward axis with the world up axis is the
    identity orientation. *)
Lemma camera_look_at_world_axes c :
  orientation (camera_look_at c CAMERA_WORLD_FORWARD CAMERA_WORLD_UP)
  = identity_quat.
Proof.
  unfold camera_look_at. cbn.
  replace (1 * 1 - 0 * 0) with 1 by ring.
  replace (0 * 0 - 0 * 1) with 0 by ring.
  replace (0 * 0 - 1 * 0) with 0 by ring.
  replace (1 * 1 + 0 * 0 + 0 * 0) with 1 by ring.
  rewrite sqrt_1.
  replace (1 * (1 / 1)) with 1 by field.
  replace (0 * (1 / 1)) with 0 by field.
  replace (1 * 1 - 0 * 0) with 1 by ring.
  replace (R_ltb 0 (1 + 1 + 1)) with true
    by (symmetry; apply R_ltb_lt; lra).
  replace (1 + 1 + 1 + 1) with (2 * 2) by ring.
  rewrite sqrt_square by lra.
  apply quat_ext; cbn; field.
Qed.

(** A fresh camera, a rotation by nothing, a resolution: the orientation is
    the identity and the view matrix is the identity matrix. *)
Lemma round_trip_view_matrix :
  let r := camera_view_matrix
             (camera_rotate camera_init (cm_init_vec3 0 0 0)) in
  orientation (fst r) = identity_quat /\
  snd r = [ 1; 0; 0; 0;  0; 1; 0; 0;  0; 0; 1; 0;  0; 0; 0; 1 ].
Proof.
  cbv zeta.
  change (camera_rotate camera_init (cm_init_vec3 0 0 0))
    with (run_commands (@camera_init R _) [ Rotate (cm_init_vec3 0 0 0) ]).
  assert (orientation
            (fst (camera_view_matrix
                    (run_commands (@camera_init R _)
                       [ Rotate (cm_init_vec3 0 0 0) ])))
          = identity_quat) as Ho.
  { rewrite view_matrix_orientation, first_view_matrix_orientation.
    cbn zeta. rewrite !cm_mulQuat_0_l.
    apply cm_normalizeQuat_nonpos. unfold quat_norm2; cbn; lra. }
  split; [ exact Ho | ].
  assert (target_position
            (fst (camera_view_matrix
                    (run_commands (@camera_init R _)
                       [ Rotate (cm_init_vec3 0 0 0) ])))
          = zero_vec3) as Ht.
  { rewrite view_matrix_target_position. cbv zeta.
    generalize (movement_basis
                  (renormalize_orientation
                     (compose_orientation
                        (clamp_angles
                           (run_commands (@camera_init R _)
                              [ Rotate (cm_init_vec3 0 0 0) ]))))).
    intros [ [ f u ] r ]. apply vec3_ext; cbn; ring. }
  assert (target_distance
            (fst (camera_view_matrix
                    (run_commands (@camera_init R _)
                       [ Rotate (cm_init_vec3 0 0 0) ])))
          = 0) as Hd.
  { change (target_distance
              (fst (camera_view_matrix
                      (run_commands (@camera_init R _)
                         [ Rotate (cm_init_vec3 0 0 0) ]))))
      with (target_distance
              (compose_orientation
                 (clamp_angles
                    (run_commands (@camera_init R _)
                       [ Rotate (cm_init_vec3 0 0 0) ])))).
    destruct (compose_orientation_frame
                (clamp_angles
                   (run_commands (@camera_init R _)
                      [ Rotate (cm_init_vec3 0 0 0) ])))
      as (_ & -> & _).
    rewrite clamp_angles_off by reflexivity. reflexivity. }
  rewrite view_matrix_matrix.
  unfold generate_view_matrix, camera_eye, camera_forward.
  rewrite Ho, Ht, Hd. cbn.
  repeat (f_equal; try ring).
Qed.

(** Pitches about the world right axis add up. *)
Lemma cm_fromAxisAngle_right_plus (x y : R) :
  cm_mulQuat (cm_fromAxisAngle CAMERA_WORLD_RIGHT x)
             (cm_fromAxisAngle CAMERA_WORLD_RIGHT y)
  = cm_fromAxisAngle CAMERA_WORLD_RIGHT (x + y).
Proof.
  apply quat_ext; cbn;
    replace ((x + y) * / 2) with (x * / 2 + y * / 2) by ring;
    rewrite ?sin_plus, ?cos_plus; ring.
Qed.

(** The pitch [cm_toEuler] reads off a pure pitch. *)
Lemma cm_toEuler_pitch (g : R) :
  vx (cm_toEuler (cm_fromAxisAngle CAMERA_WORLD_RIGHT g))
  = R_atan2 (sin g) (cos g).
Proof.
  cbn.
  replace (2 * (1 * sin (g * / 2) * cos (g * / 2)
                - 0 * sin (g * / 2) * (0 * sin (g * / 2))))
    with (sin (2 * (g * / 2))) by (rewrite sin_2a; ring).
  replace (1 - 2 * (1 * sin (g * / 2) * (1 * sin (g * / 2))
                    + 0 * sin (g * / 2) * (0 * sin (g * / 2))))
    with (cos (2 * (g * / 2))) by (rewrite cos_2a_sin; ring).
  replace (2 * (g * / 2)) with g by field. reflexivity.
Qed.

Lemma R_atan2_sin_cos (g : R) :
  - (PI / 2) < g < PI / 2 -> R_atan2 (sin g) (cos g) = g.
Proof.
  intros Hg. pose proof (cos_gt_0 g (proj1 Hg) (proj2 Hg)) as Hc.
  unfold R_atan2. destruct (Rlt_dec 0 (cos g)); [ | contradiction ].
  now apply atan_tan.
Qed.

Lemma R_atan2_quarter_turn : R_atan2 (sin (PI / 2)) (cos (PI / 2)) = PI / 2.
Proof.
  rewrite sin_PI2, cos_PI2. unfold R_atan2.
  repeat destruct (Rlt_dec _ _); lra.
Qed.

(** With the pitch clamped to a quarter turn either way and the camera
    pitched a hundredth of a radian short of the upper bound, a rotation
    by one radian is cut to that hundredth, and the pitch of the resolved
    orientation is the bound. *)
Lemma clamp_boundary_scenario :
  vx (cm_toEuler (orientation clamp_boundary_camera)) = PI / 2 - / 100 /\
  vx (rotation_accumulator (clamp_angles clamp_boundary_camera)) = / 100 /\
  vx (cm_toEuler (orientation (fst (camera_view_matrix clamp_boundary_camera))))
  = PI / 2.
Proof.
  pose proof PI2_1 as Hpi. pose proof PI_4 as Hpi4.
  assert (vx (cm_toEuler (orientation clamp_boundary_camera))
          = PI / 2 - / 100) as Hcur.
  { change (orientation clamp_boundary_camera)
      with (cm_fromAxisAngle (@CAMERA_WORLD_RIGHT R _) (PI / 2 - / 100)).
    rewrite cm_toEuler_pitch. apply R_atan2_sin_cos. lra. }
  assert (vx (rotation_accumulator (clamp_angles clamp_boundary_camera))
          = / 100) as Hx.
  { change (vx (rotation_accumulator (clamp_angles clamp_boundary_camera)))
      with (axis_component Pitch
              (rotation_accumulator (clamp_angles clamp_boundary_camera))).
    rewrite clamp_angles_component by reflexivity.
    cbn [axis_component axis_min axis_max]. rewrite Hcur.
    change (cm_min (fsub (maxPitch clamp_boundary_camera) (PI / 2 - / 100))
              (cm_max (fsub (minPitch clamp_boundary_camera) (PI / 2 - / 100))
                 (vx (rotation_accumulator clamp_boundary_camera))))
      with (cm_min (PI / 2 - (PI / 2 - / 100))
              (cm_max (- (PI / 2) - (PI / 2 - / 100)) 1)).
    rewrite cm_min_max_clamp by lra.
    unfold clamp. repeat destruct (Rlt_dec _ _); lra. }
  assert (vy (rotation_accumulator (clamp_angles clamp_boundary_camera)) = 0)
    as Hy.
  { change (vy (rotation_accumulator (clamp_angles clamp_boundary_camera)))
      with (axis_component Yaw
              (rotation_accumulator (clamp_angles clamp_boundary_camera))).
    rewrite clamp_angles_component_off by reflexivity. reflexivity. }
  repeat split; try assumption.
  rewrite view_matrix_orientation, compose_orientation_orientation.
  cbv zeta. rewrite clamp_angles_mode, clamp_angles_orientation.
  change (has_flag (mode clamp_boundary_camera) CAMERA_MODE_DISABLE_ROLL)
    with true. cbv iota.
  unfold yaw_quat, pitch_quat. rewrite Hx, Hy, cm_fromAxisAngle_0.
  change (orientation clamp_boundary_camera)
    with (cm_fromAxisAngle (@CAMERA_WORLD_RIGHT R _) (PI / 2 - / 100)).
  rewrite cm_mulQuat_1_l, cm_fromAxisAngle_right_plus.
  replace (PI / 2 - / 100 + / 100) with (PI / 2) by ring.
  rewrite cm_normalizeQuat_unit
    by apply (pitch_quat_unit (cm_init_vec3 (PI / 2) 0 0)).
  rewrite cm_toEuler_pitch. apply R_atan2_quarter_turn.
Qed.

End Scenarios.

(** * The claims *)

Section Claims.

Local Open Scope R_scope.
Implicit Types (c : Camera R) (v : Vec3 R) (q a b : Quat R).

(** C1.  [camera_init] returns a camera whose target position, target
    distance, accumulators and clamp bounds are zero and whose mode is
    [CAMERA_MODE_FREE]; its orientation is the zero quaternion
    [(0, 0, 0, 0)], not the identity [(0, 0, 0, 1)], so that until the
    first [camera_view_matrix] the forward axis it reports is the zero
    vector. *)
Theorem camera_init_orientation_is_zero :
  orientation (@camera_init R _) = cm_init_quat 0 0 0 0 /\
  orientation (@camera_init R _) <> cm_init_quat 0 0 0 1 /\
  camera_forward (@camera_init R _) = cm_init_vec3 0 0 0 /\
  target_position (@camera_init R _) = cm_init_vec3 0 0 0 /\
  target_distance (@camera_init R _) = 0 /\
  movement_accumulator (@camera_init R _) = cm_init_vec3 0 0 0 /\
  rotation_accumulator (@camera_init R _) = cm_init_vec3 0 0 0 /\
  clamp_bounds (@camera_init R _) = (0, 0, 0, 0, 0, 0) /\
  mode (@camera_init R _) = CAMERA_MODE_FREE.
Proof.
  split; [ reflexivity | ].
  split; [ intros H; apply (f_equal qw) in H; cbn in H; lra | ].
  split; [ apply vec3_ext; cbn; ring | ].
  repeat split.
Qed.

(** C2.  With the delta quaternions built by [cm_fromAxisAngle] over the
    world right, up and forward axes from the rotation accumulator as the
    clamp block leaves it: when [CAMERA_MODE_DISABLE_ROLL] is set the
    orientation before the re-normalization is the Hamilton product
    yaw (orientation pitch), and when it is not set it is
    ((orientation pitch) yaw) roll; [camera_view_matrix] stores the
    normalization of that product. *)
Theorem view_matrix_composition_order c :
  let rot := rotation_accumulator (clamp_angles c) in
  let pitch := cm_fromAxisAngle CAMERA_WORLD_RIGHT (vx rot) in
  let yaw := cm_fromAxisAngle CAMERA_WORLD_UP (vy rot) in
  let roll := cm_fromAxisAngle CAMERA_WORLD_FORWARD (vz rot) in
  (has_flag (mode c) CAMERA_MODE_DISABLE_ROLL = true ->
   orientation (compose_orientation (clamp_angles c))
   = hamilton yaw (hamilton (orientation c) pitch) /\
   orientation (fst (camera_view_matrix c))
   = cm_normalizeQuat (hamilton yaw (hamilton (orientation c) pitch))) /\
  (has_flag (mode c) CAMERA_MODE_DISABLE_ROLL = false ->
   orientation (compose_orientation (clamp_angles c))
   = hamilton (hamilton (hamilton (orientation c) pitch) yaw) roll /\
   orientation (fst (camera_view_matrix c))
   = cm_normalizeQuat
       (hamilton (hamilton (hamilton (orientation c) pitch) yaw) roll)).
Proof.
  intros rot pitch yaw roll.
  pose proof (compose_orientation_orientation (clamp_angles c)) as H.
  cbn zeta in H. rewrite clamp_angles_mode, clamp_angles_orientation in H.
  rewrite view_matrix_orientation.
  split; intros Hflag; rewrite Hflag in H; rewrite H;
    rewrite !cm_mulQuat_hamilton; split; reflexivity.
Qed.

Lemma view_matrix_composition_order_witness :
  let c1 := example_camera CAMERA_MODE_ORBITAL identity_quat
              (cm_init_vec3 2 1 0) (cm_init_vec3 0 0 0) in
  let c2 := example_camera CAMERA_MODE_FREE identity_quat
              (cm_init_vec3 2 1 3) (cm_init_vec3 0 0 0) in
  (has_flag (mode c1) CAMERA_MODE_DISABLE_ROLL = true /\
   orientation (fst (camera_view_matrix c1))
   = cm_normalizeQuat
       (hamilton
          (cm_fromAxisAngle CAMERA_WORLD_UP
             (vy (rotation_accumulator (clamp_angles c1))))
          (hamilton (orientation c1)
             (cm_fromAxisAngle CAMERA_WORLD_RIGHT
                (vx (rotation_accumulator (clamp_angles c1))))))) /\
  (has_flag (mode c2) CAMERA_MODE_DISABLE_ROLL = false /\
   orientation (fst (camera_view_matrix c2))
   = cm_normalizeQuat
       (hamilton
          (hamilton
             (hamilton (orientation c2)
                (cm_fromAxisAngle CAMERA_WORLD_RIGHT
                   (vx (rotation_accumulator (clamp_angles c2)))))
             (cm_fromAxisAngle CAMERA_WORLD_UP
                (vy (rotation_accumulator (clamp_angles c2)))))
          (cm_fromAxisAngle CAMERA_WORLD_FORWARD
             (vz (rotation_accumulator (clamp_angles c2)))))).
Proof.
  intros c1 c2. split.
  - split; [ reflexivity | ].
    apply (proj1 (view_matrix_composition_order c1)). reflexivity.
  - split; [ reflexivity | ].
    apply (proj2 (view_matrix_composition_order c2)). reflexivity.
Defined.







(** C5.  With [CAMERA_MODE_DISABLE_ROLL] set and no clamp flag, from a unit
    orientation and an empty rotation accumulator: a yaw of [theta]
    resolved by one [camera_view_matrix] and then a pitch of [phi]
    resolved by a second one give the orientation that the single
    resolution of [(phi, theta, 0)] gives. *)
Theorem no_roll_yaw_then_pitch c (theta phi : R) :
  has_flag (mode c) CAMERA_MODE_DISABLE_ROLL = true ->
  (forall ax, has_flag (mode c) (axis_flag ax) = false) ->
  quat_norm2 (orientation c) = 1 ->
  rotation_accumulator c = zero_vec3 ->
  let c1 :=
    fst (camera_view_matrix (camera_rotate c (cm_init_vec3 0 theta 0))) in
  let c2 :=
    fst (camera_view_matrix (camera_rotate c1 (cm_init_vec3 phi 0 0))) in
  let c3 :=
    fst (camera_view_matrix (camera_rotate c (cm_init_vec3 phi theta 0))) in
  orientation c2 = orientation c3.
Proof.
  intros Hroll Hclamp Hunit Hrot. cbv zeta.
  pose proof (view_matrix_no_roll_rotate c (cm_init_vec3 0 theta 0)
                Hroll Hclamp Hunit Hrot) as Ho1.
  rewrite pitch_quat_no_pitch, cm_mulQuat_1_r in Ho1.
  rewrite view_matrix_no_roll_rotate.
  - rewrite Ho1, view_matrix_no_roll_rotate by assumption.
    rewrite yaw_quat_no_yaw, cm_mulQuat_1_l, cm_mulQuat_assoc.
    unfold yaw_quat, pitch_quat. cbn [vx vy]. reflexivity.
  - rewrite view_matrix_mode. exact Hroll.
  - intros ax. rewrite view_matrix_mode. apply Hclamp.
  - rewrite Ho1, quat_norm2_mul, yaw_quat_unit, Hunit. ring.
  - apply view_matrix_rotation_accumulator.
Qed.

Lemma no_roll_yaw_then_pitch_witness :
  let c := example_camera CAMERA_MODE_DISABLE_ROLL identity_quat
             zero_vec3 zero_vec3 in
  let c1 := fst (camera_view_matrix (camera_rotate c (cm_init_vec3 0 1 0))) in
  let c2 := fst (camera_view_matrix (camera_rotate c1 (cm_init_vec3 2 0 0))) in
  let c3 := fst (camera_view_matrix (camera_rotate c (cm_init_vec3 2 1 0))) in
  orientation c2 = orientation c3.
Proof.
  intros c. apply (no_roll_yaw_then_pitch c 1 2).
  - reflexivity.
  - intros [ | | ]; reflexivity.
  - unfold quat_norm2; cbn; lra.
  - reflexivity.
Defined.

(** With [CAMERA_MODE_MOVE_IN_WORLDPLANE], whatever the camera looks at, a
    pure forward move of one unit leaves the height of the target and
    displaces it horizontally by one unit. *)
Lemma worldplane_forward_move_horizontal c :
  has_flag (mode c) CAMERA_MODE_MOVE_IN_WORLDPLANE = true ->
  movement_accumulator c = zero_vec3 ->
  let c' := fst (camera_view_matrix (camera_move c (cm_init_vec3 1 0 0))) in
  let dx := vx (target_position c') - vx (target_position c) in
  let dy := vy (target_position c') - vy (target_position c) in
  let dz := vz (target_position c') - vz (target_position c) in
  dy = 0 /\ dx * dx + dz * dz = 1.
Proof.
  intros Hflag Hmov. cbv zeta.
  pose proof (view_matrix_target_position
                (camera_move c (cm_init_vec3 1 0 0))) as Ht.
  cbv zeta in Ht. rewrite Ht. clear Ht.
  assert (mode (renormalize_orientation
                  (compose_orientation
                     (clamp_angles (camera_move c (cm_init_vec3 1 0 0)))))
          = mode c) as Hmode.
  { rewrite renormalize_orientation_mode, compose_orientation_mode,
      clamp_angles_mode. reflexivity. }
  assert (quat_norm2
            (orientation
               (renormalize_orientation
                  (compose_orientation
                     (clamp_angles (camera_move c (cm_init_vec3 1 0 0))))))
          = 1) as Hunit.
  { rewrite renormalize_orientation_orientation.
    apply cm_normalizeQuat_norm2. }
  remember (renormalize_orientation
              (compose_orientation
                 (clamp_angles (camera_move c (cm_init_vec3 1 0 0)))))
    as c1 eqn:E.
  clear E. rewrite <- Hmode in Hflag.
  destruct (movement_basis_forward_horizontal c1 Hflag Hunit) as (Hy & Hxz).
  assert (snd (fst (movement_basis c1)) = CAMERA_WORLD_UP) as Hup
    by (unfold movement_basis; rewrite Hflag; reflexivity).
  change (movement_accumulator (camera_move c (cm_init_vec3 1 0 0)))
    with (cm_add (movement_accumulator c) (cm_init_vec3 1 0 0)).
  change (target_position (camera_move c (cm_init_vec3 1 0 0)))
    with (target_position c).
  rewrite Hmov, cm_add_zero_l, Hup.
  destruct (movement_basis c1) as [ [ w u ] r ]. cbn [fst snd] in *.
  destruct w as [ wx wy wz ], r as [ rx ry rz ].
  destruct (target_position c) as [ tx ty tz ].
  cbn in *. subst wy. split; [ ring | ].
  replace (tx + wx * 1 + 0 * 0 + rx * 0 - tx) with wx by ring.
  replace (tz + wz * 1 + 0 * 0 + rz * 0 - tz) with wz by ring.
  exact Hxz.
Qed.

(** C7.  With [CAMERA_MODE_MOVE_IN_WORLDPLANE] set and an empty movement
    accumulator, when the camera as resolved looks straight down (the
    vertical component of its forward axis is within 0.0001 of -1), a
    [camera_move] by [(1, 0, 0)] followed by [camera_view_matrix] keeps the
    Y component of the target position and displaces the target in the
    X/Z plane by a unit vector, the horizontal direction of the up axis;
    the displacement is not zero. *)
Theorem worldplane_move_looking_down c :
  has_flag (mode c) CAMERA_MODE_MOVE_IN_WORLDPLANE = true ->
  movement_accumulator c = zero_vec3 ->
  let c' := fst (camera_view_matrix (camera_move c (cm_init_vec3 1 0 0))) in
  vy (camera_forward c') < -1 + / 10000 ->
  let up := camera_up c' in
  let h := sqrt (vx up * vx up + vz up * vz up) in
  let dx := vx (target_position c') - vx (target_position c) in
  let dy := vy (target_position c') - vy (target_position c) in
  let dz := vz (target_position c') - vz (target_position c) in
  dy = 0 /\
  0 < h /\ dx = vx up / h /\ dz = vz up / h /\
  dx * dx + dz * dz = 1 /\ (dx <> 0 \/ dz <> 0).
Proof.
  intros Hflag Hmov. cbv zeta. intros Hdown.
  destruct (view_matrix_queries (camera_move c (cm_init_vec3 1 0 0)))
    as (Hf & Hu & _).
  rewrite Hf in Hdown. rewrite Hu. clear Hf Hu.
  pose proof (view_matrix_target_position
                (camera_move c (cm_init_vec3 1 0 0))) as Ht.
  cbv zeta in Ht. rewrite Ht. clear Ht.
  assert (mode (renormalize_orientation
                  (compose_orientation
                     (clamp_angles (camera_move c (cm_init_vec3 1 0 0)))))
          = mode c) as Hmode.
  { rewrite renormalize_orientation_mode, compose_orientation_mode,
      clamp_angles_mode. reflexivity. }
  assert (quat_norm2
            (orientation
               (renormalize_orientation
                  (compose_orientation
                     (clamp_angles (camera_move c (cm_init_vec3 1 0 0))))))
          = 1) as Hunit.
  { rewrite renormalize_orientation_orientation.
    apply cm_normalizeQuat_norm2. }
  remember (renormalize_orientation
              (compose_orientation
                 (clamp_angles (camera_move c (cm_init_vec3 1 0 0)))))
    as c1 eqn:E.
  clear E.
  rewrite movement_basis_looking_down by (rewrite ?Hmode; assumption).
  cbn [fst snd].
  change (movement_accumulator (camera_move c (cm_init_vec3 1 0 0)))
    with (cm_add (movement_accumulator c) (cm_init_vec3 1 0 0)).
  change (target_position (camera_move c (cm_init_vec3 1 0 0)))
    with (target_position c).
  rewrite Hmov, cm_add_zero_l.
  pose proof (camera_up_unit c1 Hunit) as Hup.
  pose proof (camera_axes_vertical c1 Hunit) as Hvert.
  generalize dependent (camera_up c1). intros u Hup Hvert.
  generalize dependent (camera_right c1). intros r Hvert.
  generalize dependent (camera_forward c1). intros f Hdown Hvert.
  destruct u as [ ux uy uz ], r as [ rx ry rz ], f as [ fx fy fz ].
  destruct (target_position c) as [ tx ty tz ].
  cbn in *. clear Hunit Hmode.
  replace (ux * ux + 0 * 0 + uz * uz) with (ux * ux + uz * uz) by ring.
  assert (0 < ux * ux + uz * uz) as Hpos by nra.
  pose proof (sqrt_lt_R0 _ Hpos) as Hh.
  pose proof (sqrt_sqrt _ (Rlt_le _ _ Hpos)) as Hhh.
  set (h := sqrt (ux * ux + uz * uz)) in *.
  set (k := 1 / sqrt (rx * rx + 0 * 0 + rz * rz)).
  assert (tx + ux * (1 / h) * 1 + 0 * 0 + rx * k * 0 - tx = ux / h) as Ex
    by (field; lra).
  assert (tz + uz * (1 / h) * 1 + 0 * 0 + rz * k * 0 - tz = uz / h) as Ez
    by (field; lra).
  rewrite Ex, Ez.
  assert (ux / h * (ux / h) + uz / h * (uz / h) = 1) as Eunit.
  { replace (ux / h * (ux / h) + uz / h * (uz / h))
      with ((ux * ux + uz * uz) / (h * h)) by (field; lra).
    rewrite Hhh. field. lra. }
  repeat split; try assumption; try reflexivity.
  - ring.
  - destruct (Req_dec (ux / h) 0) as [ E0 | ]; [ right | left; assumption ].
    intros E1. rewrite E0, E1 in Eunit. lra.
Qed.

Lemma worldplane_move_looking_down_witness :
  let c := example_camera CAMERA_MODE_MOVE_IN_WORLDPLANE looking_down
             zero_vec3 zero_vec3 in
  let c' := fst (camera_view_matrix (camera_move c (cm_init_vec3 1 0 0))) in
  (vy (camera_forward c') < -1 + / 10000) /\
  vy (target_position c') - vy (target_position c) = 0 /\
  (vx (target_position c') - vx (target_position c) <> 0 \/
   vz (target_position c') - vz (target_position c) <> 0).
Proof.
  intros c c'.
  assert (vy (camera_forward c') < -1 + / 10000) as Hdown.
  { unfold c', camera_forward.
    rewrite view_matrix_idle_orientation.
    - cbn. lra.
    - reflexivity.
    - intros [ | | ]; reflexivity.
    - unfold quat_norm2. cbn. lra. }
  split; [ exact Hdown | ].
  destruct (worldplane_move_looking_down c eq_refl eq_refl Hdown)
    as (Hy & _ & _ & _ & _ & Hxz).
  split; assumption.
Defined.

(** C10.  For the camera [camera_init] returns, whatever calls of
    [camera_move] and [camera_rotate] precede the first
    [camera_view_matrix], that call leaves the identity quaternion as the
    orientation.  In exact arithmetic the zero orientation makes every
    product zero; in single precision every component of the products is
    a zero or not a number; in both cases the sum of squares is not
    positive and [cm_normalizeQuat] returns the identity. *)
Theorem first_view_matrix_discards_rotation :
  (forall ks : list (Command R),
      orientation (compose_orientation
                     (clamp_angles (run_commands camera_init ks)))
      = cm_init_quat 0 0 0 0 /\
      orientation (fst (camera_view_matrix (run_commands camera_init ks)))
      = cm_init_quat 0 0 0 1) /\
  (forall (m : Binary32.Libm) (ks : list (Command spec_float)),
      orientation
        (fst (@camera_view_matrix _ (Binary32.scalar m)
                (@run_commands _ (Binary32.scalar m)
                   (@camera_init _ (Binary32.scalar m)) ks)))
      = @identity_quat _ (Binary32.scalar m)).
Proof.
  split.
  - intros ks.
    pose proof (first_view_matrix_orientation ks) as H. cbn zeta in H.
    rewrite !cm_mulQuat_0_l in H.
    split; [ exact H | ].
    rewrite view_matrix_orientation, H.
    apply cm_normalizeQuat_nonpos. unfold quat_norm2; cbn; lra.
  - intros m ks.
    rewrite (@view_matrix_orientation _ (Binary32.scalar m)).
    rewrite (@first_view_matrix_orientation _ (Binary32.scalar m) ks).
    cbn zeta.
    apply Binary32Facts.cm_normalizeQuat_zero_or_nan.
    do 3 apply Binary32Facts.quat_zero_or_nan_mul_l.
    reflexivity.
Qed.

End Claims.

(** * Further properties of the code *)

(** ** Rotating vectors by quaternions *)

Section QuaternionAlgebra.
Local Open Scope R_scope.
Implicit Types (c : Camera R) (u v : Vec3 R) (q a b : Quat R).

Lemma cm_mul_dot q u v :
  dot3 (cm_mul u q) (cm_mul v q)
  = quat_norm2 q * quat_norm2 q * dot3 u v.
Proof. unfold dot3, quat_norm2. cbn. ring. Qed.

Lemma cm_mul_cross q u v :
  cm_cross (cm_mul u q) (cm_mul v q)
  = cm_scale (cm_mul (cm_cross u v) q) (quat_norm2 q).
Proof. apply vec3_ext; unfold quat_norm2; cbn; ring. Qed.

Lemma cm_scale_1 v : cm_scale v 1 = v.
Proof. apply vec3_ext; cbn; ring. Qed.

(** X1.  [cm_mul] by a unit quaternion is a rotation: it keeps the dot
    product of two vectors (so lengths and angles) and maps their cross
    product to the cross product of the images. *)
Theorem cm_mul_unit_is_rotation q u v :
  quat_norm2 q = 1 ->
  dot3 (cm_mul u q) (cm_mul v q) = dot3 u v /\
  cm_cross (cm_mul u q) (cm_mul v q) = cm_mul (cm_cross u v) q.
Proof.
  intros H. split.
  - rewrite cm_mul_dot, H. ring.
  - rewrite cm_mul_cross, H. apply cm_scale_1.
Qed.

Lemma cm_mul_unit_is_rotation_witness :
  let u := cm_init_vec3 1 2 3 in
  let v := cm_init_vec3 0 1 0 in
  quat_norm2 looking_down = 1 /\
  dot3 (cm_mul u looking_down) (cm_mul v looking_down) = dot3 u v.
Proof.
  intros u v.
  assert (quat_norm2 looking_down = 1) as H
    by (unfold quat_norm2; cbn; lra).
  split; [ exact H | ].
  apply (cm_mul_unit_is_rotation looking_down u v H).
Defined.

(** X2.  Rotations by [cm_mul] compose as the quaternions multiply:
    rotating by [a] and then by [b] is rotating by [cm_mulQuat a b]; the
    identity quaternion rotates nothing, and rotating by [cm_invert q]
    undoes the rotation by [q] up to the factor [|q|^4]. *)
Theorem cm_mul_composes a b q v :
  cm_mul (cm_mul v a) b = cm_mul v (cm_mulQuat a b) /\
  cm_mul v identity_quat = v /\
  cm_mul (cm_mul v q) (cm_invert q)
  = cm_scale v (quat_norm2 q * quat_norm2 q).
Proof.
  repeat split; apply vec3_ext; unfold quat_norm2; cbn; ring.
Qed.

(** X3.  [cm_invert] is the conjugate: the product of a quaternion with it,
    on either side, is the real quaternion [(0, 0, 0, |q|^2)] (the
    identity when [q] is a unit); it reverses products, keeps the norm and
    is its own inverse. *)
Theorem cm_invert_is_conjugate a b q :
  cm_mulQuat q (cm_invert q) = cm_init_quat 0 0 0 (quat_norm2 q) /\
  cm_mulQuat (cm_invert q) q = cm_init_quat 0 0 0 (quat_norm2 q) /\
  cm_invert (cm_mulQuat a b) = cm_mulQuat (cm_invert b) (cm_invert a) /\
  quat_norm2 (cm_invert q) = quat_norm2 q /\
  cm_invert (cm_invert q) = q.
Proof.
  repeat split; try apply quat_ext; unfold quat_norm2; cbn; ring.
Qed.

(** X4.  [cm_cross] is the cross product: orthogonal to both arguments,
    antisymmetric, and of squared length [|u|^2 |v|^2 - (u.v)^2]. *)
Theorem cm_cross_properties u v :
  dot3 (cm_cross u v) u = 0 /\ dot3 (cm_cross u v) v = 0 /\
  cm_cross v u = cm_negate (cm_cross u v) /\
  dot3 (cm_cross u v) (cm_cross u v)
  = dot3 u u * dot3 v v - dot3 u v * dot3 u v.
Proof.
  repeat split; try (apply vec3_ext); unfold dot3; cbn; ring.
Qed.

(** X5.  For a unit orientation the axes [camera_right], [camera_up] and
    [camera_forward] are an orthonormal basis with the handedness of the
    world axes: right x up = forward, up x forward = right and
    forward x right = up. *)
Theorem camera_axes_orthonormal c :
  quat_norm2 (orientation c) = 1 ->
  let r := camera_right c in
  let u := camera_up c in
  let f := camera_forward c in
  dot3 r r = 1 /\ dot3 u u = 1 /\ dot3 f f = 1 /\
  dot3 r u = 0 /\ dot3 u f = 0 /\ dot3 f r = 0 /\
  cm_cross r u = f /\ cm_cross u f = r /\ cm_cross f r = u.
Proof.
  intros H. cbv zeta.
  assert (quat_norm2 (cm_invert (orientation c)) = 1) as Hi
    by (rewrite <- H; unfold quat_norm2; cbn; ring).
  unfold camera_right, camera_up, camera_forward.
  rewrite !cm_mul_dot, !cm_mul_cross, Hi, !cm_scale_1.
  repeat split; try (unfold dot3; cbn; ring);
    f_equal; apply vec3_ext; cbn; ring.
Qed.

Lemma camera_axes_orthonormal_witness :
  let c := example_camera CAMERA_MODE_FREE looking_down zero_vec3 zero_vec3 in
  quat_norm2 (orientation c) = 1 /\
  dot3 (camera_up c) (camera_forward c) = 0 /\
  cm_cross (camera_right c) (camera_up c) = camera_forward c.
Proof.
  intros c.
  assert (quat_norm2 (orientation c) = 1) as H
    by (unfold quat_norm2; cbn; lra).
  split; [ exact H | ].
  pose proof (camera_axes_orthonormal c H) as T. cbv zeta in T.
  split; apply T.
Defined.

End QuaternionAlgebra.

(** ** Axis and angle *)

Section AxisAngle.
Local Open Scope R_scope.
Implicit Types (c : Camera R) (u v : Vec3 R) (q a b : Quat R).

(** X6.  For a unit axis, [cm_fromAxisAngle] gives a unit quaternion; the
    opposite angle gives its conjugate, the product of two rotations about
    the axis is the rotation by the sum of the angles, and the rotation
    leaves the axis itself in place. *)
Theorem cm_fromAxisAngle_unit_axis (axis : Vec3 R) (x y : R) :
  dot3 axis axis = 1 ->
  quat_norm2 (cm_fromAxisAngle axis x) = 1 /\
  cm_fromAxisAngle axis (- x) = cm_invert (cm_fromAxisAngle axis x) /\
  cm_mulQuat (cm_fromAxisAngle axis x) (cm_fromAxisAngle axis y)
  = cm_fromAxisAngle axis (x + y) /\
  cm_mul axis (cm_fromAxisAngle axis x) = axis.
Proof.
  intros H. destruct axis as [ ax ay az ]. unfold dot3 in H. cbn in H.
  pose proof (sin2_cos2_sum (x * / 2)) as Hx.
  split; [ | split; [ | split ] ].
  - unfold quat_norm2. cbn.
    replace (ax * sin (x * / 2) * (ax * sin (x * / 2))
             + ay * sin (x * / 2) * (ay * sin (x * / 2))
             + az * sin (x * / 2) * (az * sin (x * / 2))
             + cos (x * / 2) * cos (x * / 2))
      with ((ax * ax + ay * ay + az * az) * (sin (x * / 2) * sin (x * / 2))
            + cos (x * / 2) * cos (x * / 2)) by ring.
    rewrite H. lra.
  - apply quat_ext; cbn;
      replace (- x * / 2) with (- (x * / 2)) by ring;
      rewrite ?sin_neg, ?cos_neg; ring.
  - apply quat_ext; cbn;
      replace ((x + y) * / 2) with (x * / 2 + y * / 2) by ring;
      rewrite ?sin_plus, ?cos_plus.
    + ring.
    + ring.
    + ring.
    + replace (cos (x * / 2) * cos (y * / 2)
               - ax * sin (x * / 2) * (ax * sin (y * / 2))
               - ay * sin (x * / 2) * (ay * sin (y * / 2))
               - az * sin (x * / 2) * (az * sin (y * / 2)))
        with (cos (x * / 2) * cos (y * / 2)
              - (ax * ax + ay * ay + az * az)
                * (sin (x * / 2) * sin (y * / 2))) by ring.
      rewrite H. ring.
  - set (s := sin (x * / 2)) in *. set (k := cos (x * / 2)) in *.
    apply vec3_ext; cbn; fold s; fold k.
    + transitivity (ax * ((ax * ax + ay * ay + az * az) * (s * s) + k * k)).
      * ring.
      * rewrite H. replace (1 * (s * s) + k * k) with 1 by lra. ring.
    + transitivity (ay * ((ax * ax + ay * ay + az * az) * (s * s) + k * k)).
      * ring.
      * rewrite H. replace (1 * (s * s) + k * k) with 1 by lra. ring.
    + transitivity (az * ((ax * ax + ay * ay + az * az) * (s * s) + k * k)).
      * ring.
      * rewrite H. replace (1 * (s * s) + k * k) with 1 by lra. ring.
Qed.

Lemma cm_fromAxisAngle_unit_axis_witness :
  let axis := cm_init_vec3 (3 / 5) 0 (4 / 5) in
  dot3 axis axis = 1 /\
  quat_norm2 (cm_fromAxisAngle axis 1) = 1 /\
  cm_mul axis (cm_fromAxisAngle axis 1) = axis.
Proof.
  intros axis.
  assert (dot3 axis axis = 1) as H by (unfold dot3; cbn; lra).
  split; [ exact H | ].
  pose proof (cm_fromAxisAngle_unit_axis axis 1 0 H) as T.
  split; apply T.
Defined.

End AxisAngle.

(** ** Euler angles *)

Section EulerRoundTrip.
Local Open Scope R_scope.
Implicit Types (c : Camera R) (u v : Vec3 R) (q a b : Quat R).

(** [atan2] of a point of the unit circle is its angle in [(-PI, PI]]. *)
Lemma R_atan2_angle (g : R) :
  - PI < g <= PI -> R_atan2 (sin g) (cos g) = g.
Proof.
  intros [ Hlo Hhi ]. pose proof PI_RGT_0 as Hpi.
  destruct (Rlt_dec g (- (PI / 2))) as [ HE | HnE ].
  { (* the third quadrant *)
    assert (cos g < 0) as Hc.
    { rewrite <- (cos_neg g). apply cos_lt_0; lra. }
    assert (sin g < 0) as Hs by (apply sin_lt_0_var; lra).
    unfold R_atan2.
    destruct (Rlt_dec 0 (cos g)); [ lra | ].
    destruct (Rlt_dec (cos g) 0); [ | lra ].
    destruct (Rlt_dec (sin g) 0); [ | lra ].
    replace (sin g / cos g) with (tan (g + PI)).
    - rewrite atan_tan by lra. ring.
    - unfold tan. rewrite neg_sin, neg_cos. field. lra. }
  destruct (Req_dec g (- (PI / 2))) as [ -> | Hne1 ].
  { rewrite sin_neg, cos_neg, sin_PI2, cos_PI2. unfold R_atan2.
    repeat destruct (Rlt_dec _ _); lra. }
  destruct (Rlt_dec g (PI / 2)) as [ HA | HnA ].
  { apply R_atan2_sin_cos. lra. }
  destruct (Req_dec g (PI / 2)) as [ -> | Hne2 ].
  { apply R_atan2_quarter_turn. }
  (* the second quadrant *)
  assert (cos g < 0) as Hc by (apply cos_lt_0; lra).
  assert (0 <= sin g) as Hs by (apply sin_ge_0; lra).
  unfold R_atan2.
  destruct (Rlt_dec 0 (cos g)); [ lra | ].
  destruct (Rlt_dec (cos g) 0); [ | lra ].
  destruct (Rlt_dec (sin g) 0); [ lra | ].
  replace (sin g / cos g) with (tan (g - PI)).
  - rewrite atan_tan by lra. ring.
  - unfold tan.
    pose proof (neg_sin (g - PI)) as E1. pose proof (neg_cos (g - PI)) as E2.
    replace (g - PI + PI) with g in E1, E2 by ring.
    assert (sin (g - PI) = - sin g) as -> by lra.
    assert (cos (g - PI) = - cos g) as -> by lra.
    field. lra.
Qed.

Lemma R_atan2_0_pos (x : R) : 0 < x -> R_atan2 0 x = 0.
Proof.
  intros H. unfold R_atan2. destruct (Rlt_dec 0 x); [ | contradiction ].
  unfold Rdiv. rewrite Rmult_0_l. apply atan_0.
Qed.

Lemma R_atan2_0_neg (x : R) : x < 0 -> R_atan2 0 x = PI.
Proof.
  intros H. unfold R_atan2.
  destruct (Rlt_dec 0 x); [ lra | ].
  destruct (Rlt_dec x 0); [ | contradiction ].
  destruct (Rlt_dec 0 0); [ lra | ].
  unfold Rdiv. rewrite Rmult_0_l, atan_0. ring.
Qed.

Lemma R_atan2_0_0 : R_atan2 0 0 = 0.
Proof. unfold R_atan2. repeat destruct (Rlt_dec _ _); lra. Qed.

Lemma double_half (g : R) : 2 * (g * / 2) = g.
Proof. field. Qed.

(** X7.  [cm_toEuler] decodes what [cm_fromAxisAngle] encodes: a pitch
    about the world right axis, or a yaw about the world up axis, by an
    angle in [(-PI, PI]] is read back as that angle, the other two angles
    being zero. *)
Theorem cm_toEuler_pitch_yaw_round_trip (g : R) :
  - PI < g <= PI ->
  cm_toEuler (cm_fromAxisAngle CAMERA_WORLD_RIGHT g) = cm_init_vec3 g 0 0 /\
  cm_toEuler (cm_fromAxisAngle CAMERA_WORLD_UP g) = cm_init_vec3 0 g 0.
Proof.
  intros Hg.
  pose proof (sin_2a (g * / 2)) as Hs. pose proof (cos_2a_sin (g * / 2)) as Hc.
  rewrite double_half in Hs, Hc.
  set (s := sin (g * / 2)) in *. set (k := cos (g * / 2)) in *.
  split; apply vec3_ext; cbn; fold s; fold k.
  - replace (2 * (1 * s * k - 0 * s * (0 * s))) with (sin g) by lra.
    replace (1 - 2 * (1 * s * (1 * s) + 0 * s * (0 * s))) with (cos g)
      by lra.
    apply R_atan2_angle, Hg.
  - replace (2 * (0 * s * k + 1 * s * (0 * s))) with 0 by ring.
    replace (1 - 2 * (0 * s * (0 * s) + 0 * s * (0 * s))) with 1 by ring.
    apply R_atan2_0_pos. lra.
  - replace (2 * (1 * s * (0 * s) + 0 * s * k)) with 0 by ring.
    apply asin_0.
  - replace (2 * (0 * s * k - 1 * s * (0 * s))) with 0 by ring.
    replace (1 - 2 * (0 * s * (0 * s) + 0 * s * (0 * s))) with 1 by ring.
    apply R_atan2_0_pos. lra.
  - replace (2 * (1 * s * k + 0 * s * (0 * s))) with (sin g) by lra.
    replace (1 - 2 * (1 * s * (1 * s) + 0 * s * (0 * s))) with (cos g)
      by lra.
    apply R_atan2_angle, Hg.
  - replace (2 * (0 * s * (1 * s) + 0 * s * k)) with 0 by ring.
    apply asin_0.
Qed.

Lemma cm_toEuler_pitch_yaw_round_trip_witness :
  cm_toEuler (cm_fromAxisAngle CAMERA_WORLD_RIGHT 3) = cm_init_vec3 3 0 0 /\
  cm_toEuler (cm_fromAxisAngle CAMERA_WORLD_UP 3) = cm_init_vec3 0 3 0.
Proof.
  apply (cm_toEuler_pitch_yaw_round_trip 3).
  pose proof PI2_3_2. lra.
Defined.

(** X8.  A roll about the world forward axis is read back by [cm_toEuler]
    only within a quarter turn: for an angle in [[-PI/2, PI/2]] the result
    is [(0, 0, g)], but for an angle in [(PI/2, PI]] it is
    [(PI, PI, PI - g)]. *)
Theorem cm_toEuler_roll_round_trip (g : R) :
  (- (PI / 2) <= g <= PI / 2 ->
   cm_toEuler (cm_fromAxisAngle CAMERA_WORLD_FORWARD g) = cm_init_vec3 0 0 g)
  /\
  (PI / 2 < g <= PI ->
   cm_toEuler (cm_fromAxisAngle CAMERA_WORLD_FORWARD g)
   = cm_init_vec3 PI PI (PI - g)).
Proof.
  pose proof (sin_2a (g * / 2)) as Hs. pose proof (cos_2a_sin (g * / 2)) as Hc.
  rewrite double_half in Hs, Hc. pose proof PI_RGT_0 as Hpi.
  set (s := sin (g * / 2)) in *. set (k := cos (g * / 2)) in *.
  assert (vx (cm_toEuler (cm_fromAxisAngle CAMERA_WORLD_FORWARD g))
          = R_atan2 0 (cos g)) as Ex.
  { cbn; fold s; fold k.
    replace (2 * (0 * s * k - 0 * s * (1 * s))) with 0 by ring.
    replace (1 - 2 * (0 * s * (0 * s) + 1 * s * (1 * s))) with (cos g)
      by lra.
    reflexivity. }
  assert (vy (cm_toEuler (cm_fromAxisAngle CAMERA_WORLD_FORWARD g))
          = R_atan2 0 (cos g)) as Ey.
  { cbn; fold s; fold k.
    replace (2 * (0 * s * k + 0 * s * (1 * s))) with 0 by ring.
    replace (1 - 2 * (0 * s * (0 * s) + 1 * s * (1 * s))) with (cos g)
      by lra.
    reflexivity. }
  assert (vz (cm_toEuler (cm_fromAxisAngle CAMERA_WORLD_FORWARD g))
          = asin (sin g)) as Ez.
  { cbn; fold s; fold k.
    replace (2 * (0 * s * (0 * s) + 1 * s * k)) with (sin g) by lra.
    reflexivity. }
  split; intros Hg; apply vec3_ext; cbn [vx vy vz]; rewrite ?Ex, ?Ey, ?Ez.
  - destruct (Req_dec g (PI / 2)) as [ -> | ];
      [ rewrite cos_PI2; apply R_atan2_0_0 | ].
    destruct (Req_dec g (- (PI / 2))) as [ -> | ];
      [ rewrite cos_neg, cos_PI2; apply R_atan2_0_0 | ].
    apply R_atan2_0_pos, cos_gt_0; lra.
  - destruct (Req_dec g (PI / 2)) as [ -> | ];
      [ rewrite cos_PI2; apply R_atan2_0_0 | ].
    destruct (Req_dec g (- (PI / 2))) as [ -> | ];
      [ rewrite cos_neg, cos_PI2; apply R_atan2_0_0 | ].
    apply R_atan2_0_pos, cos_gt_0; lra.
  - apply asin_sin. lra.
  - apply R_atan2_0_neg, cos_lt_0; lra.
  - apply R_atan2_0_neg, cos_lt_0; lra.
  - replace (sin g) with (sin (PI - g)) by apply sin_PI_x.
    apply asin_sin. lra.
Qed.

Lemma cm_toEuler_roll_round_trip_witness :
  cm_toEuler (cm_fromAxisAngle CAMERA_WORLD_FORWARD 1) = cm_init_vec3 0 0 1 /\
  cm_toEuler (cm_fromAxisAngle CAMERA_WORLD_FORWARD 3)
  = cm_init_vec3 PI PI (PI - 3).
Proof.
  pose proof PI2_1. pose proof PI2_3_2. pose proof PI_4.
  split.
  - apply (proj1 (cm_toEuler_roll_round_trip 1)). lra.
  - apply (proj2 (cm_toEuler_roll_round_trip 3)). lra.
Defined.

End EulerRoundTrip.

(** ** Normalizing vectors *)

Section NormalizeVec3.
Local Open Scope R_scope.
Implicit Types (c : Camera R) (u v : Vec3 R) (q a b : Quat R).



End NormalizeVec3.

(** ** The eye and the view matrix *)

Section EyeAndMatrix.
Local Open Scope R_scope.
Implicit Types (c : Camera R) (u v p : Vec3 R) (q a b : Quat R).

Lemma cm_mul_invert_back q v :
  cm_mul (cm_mul v (cm_invert q)) q
  = cm_scale v (quat_norm2 q * quat_norm2 q).
Proof. apply vec3_ext; unfold quat_norm2; cbn; ring. Qed.

(** X10.  For a unit orientation [camera_eye] lies on the line through the
    target along the forward axis, behind the target by the target
    distance: stepping the distance forward from the eye gives the target,
    and the eye is [|target_distance|] away from it. *)
Theorem camera_eye_behind_target c :
  quat_norm2 (orientation c) = 1 ->
  cm_add (camera_eye c) (cm_scale (camera_forward c) (target_distance c))
  = target_position c /\
  dot3 (vec3_minus (camera_eye c) (target_position c))
       (vec3_minus (camera_eye c) (target_position c))
  = target_distance c * target_distance c.
Proof.
  intros H. split.
  - apply vec3_ext; cbn; ring.
  - transitivity (quat_norm2 (orientation c) * quat_norm2 (orientation c)
                  * (target_distance c * target_distance c)).
    + unfold dot3, quat_norm2. cbn. ring.
    + rewrite H. ring.
Qed.

Lemma camera_eye_behind_target_witness :
  let c := orbit_camera in
  quat_norm2 (orientation c) = 1 /\
  dot3 (vec3_minus (camera_eye c) (target_position c))
       (vec3_minus (camera_eye c) (target_position c))
  = target_distance c * target_distance c.
Proof.
  intros c.
  assert (quat_norm2 (orientation c) = 1) as H
    by (unfold quat_norm2; cbn; lra).
  split; [ exact H | ].
  apply (camera_eye_behind_target c H).
Defined.

Lemma generate_view_matrix_point c w :
  quat_norm2 (orientation c) = 1 ->
  mtx_transform_point (generate_view_matrix c) w
  = cm_mul (vec3_minus w (camera_eye c)) (orientation c).
Proof.
  intros Hunit.
  destruct c as [ t d [ x y z w0 ] md mv rt a1 a2 a3 a4 a5 a6 ].
  unfold quat_norm2 in Hunit. cbn in Hunit.
  destruct t as [ tx ty tz ], w as [ px py pz ].
  assert (px * (x * x + y * y + z * z + w0 * w0) = px) as Hx
    by (rewrite Hunit; ring).
  assert (py * (x * x + y * y + z * z + w0 * w0) = py) as Hy
    by (rewrite Hunit; ring).
  assert (pz * (x * x + y * y + z * z + w0 * w0) = pz) as Hz
    by (rewrite Hunit; ring).
  apply vec3_ext; cbn; lra.
Qed.

Lemma generate_view_matrix_shape c :
  length (generate_view_matrix c) = 16%nat /\
  mtx_entry (generate_view_matrix c) 3 = 0 /\
  mtx_entry (generate_view_matrix c) 7 = 0 /\
  mtx_entry (generate_view_matrix c) 11 = 0 /\
  mtx_entry (generate_view_matrix c) 15 = 1.
Proof.
  unfold generate_view_matrix, cm_matrixFromQuat, mtx_entry.
  cbn [array_set nth length]. auto.
Qed.

(** X11.  From a unit orientation, the matrix [camera_view_matrix] writes
    is the view transform of the camera it leaves: it takes a world point
    [p] to [cm_mul (p - eye) orientation], so the eye goes to the origin
    and the points one unit from the eye along the camera's right, up and
    forward axes go to the world right, up and forward axes; the entries
    3, 7, 11 are 0 and entry 15 is 1. *)
Theorem view_matrix_is_view_transform c0 p :
  quat_norm2 (orientation c0) = 1 ->
  let c := fst (camera_view_matrix c0) in
  let m := snd (camera_view_matrix c0) in
  mtx_transform_point m p
  = cm_mul (vec3_minus p (camera_eye c)) (orientation c) /\
  mtx_transform_point m (camera_eye c) = zero_vec3 /\
  mtx_transform_point m (cm_add (camera_eye c) (camera_right c))
  = CAMERA_WORLD_RIGHT /\
  mtx_transform_point m (cm_add (camera_eye c) (camera_up c))
  = CAMERA_WORLD_UP /\
  mtx_transform_point m (cm_add (camera_eye c) (camera_forward c))
  = CAMERA_WORLD_FORWARD /\
  length m = 16%nat /\
  mtx_entry m 3 = 0 /\ mtx_entry m 7 = 0 /\ mtx_entry m 11 = 0 /\
  mtx_entry m 15 = 1.
Proof.
  intros Hunit0. cbv zeta. rewrite view_matrix_matrix.
  assert (quat_norm2 (orientation (fst (camera_view_matrix c0))) = 1)
    as Hunit
    by (rewrite view_matrix_orientation; apply cm_normalizeQuat_norm2).
  generalize dependent (fst (camera_view_matrix c0)). intros c Hunit.
  assert (forall u, vec3_minus (cm_add (camera_eye c) u) (camera_eye c) = u)
    as Hcancel by (intros u; apply vec3_ext; cbn; ring).
  rewrite !generate_view_matrix_point, !Hcancel by exact Hunit.
  unfold camera_right, camera_up, camera_forward.
  rewrite !cm_mul_invert_back, Hunit, Rmult_1_l, !cm_scale_1.
  split; [ reflexivity | ].
  split; [ apply vec3_ext; cbn; ring | ].
  do 3 (split; [ reflexivity | ]).
  apply generate_view_matrix_shape.
Qed.

Lemma view_matrix_is_view_transform_witness :
  let c0 := camera_rotate orbit_camera (cm_init_vec3 1 2 0) in
  let c := fst (camera_view_matrix c0) in
  let m := snd (camera_view_matrix c0) in
  quat_norm2 (orientation c0) = 1 /\
  mtx_transform_point m (camera_eye c) = zero_vec3 /\
  mtx_transform_point m (cm_add (camera_eye c) (camera_forward c))
  = CAMERA_WORLD_FORWARD.
Proof.
  cbv zeta.
  assert (quat_norm2
            (orientation (camera_rotate orbit_camera (cm_init_vec3 1 2 0)))
          = 1) as Hunit by (unfold quat_norm2; cbn; lra).
  split; [ exact Hunit | ].
  pose proof (view_matrix_is_view_transform
                (camera_rotate orbit_camera (cm_init_vec3 1 2 0))
                zero_vec3 Hunit) as T.
  cbv zeta in T. destruct T as (_ & He & _ & _ & Hf & _).
  split; [ exact He | exact Hf ].
Defined.

End EyeAndMatrix.

(** ** The calls between two resolutions *)

Section Resolution.
Local Open Scope R_scope.
Implicit Types (c : Camera R) (u v p : Vec3 R) (q a b : Quat R).

Lemma run_command_swap c (j k : Command R) :
  run_command (run_command c j) k = run_command (run_command c k) j.
Proof.
  destruct c as [ t d o md [ mx my mz ] [ rx ry rz ] a1 a2 a3 a4 a5 a6 ].
  destruct j as [ [ jx jy jz ] | [ jx jy jz ] ],
           k as [ [ kx ky kz ] | [ kx ky kz ] ];
    cbn; unfold camera_move, camera_rotate, set_movement_accumulator,
           set_rotation_accumulator, cm_add; cbn;
    try reflexivity; f_equal; f_equal; ring.
Qed.

(** X12.  In exact arithmetic the order of the [camera_move] and
    [camera_rotate] calls made between two resolutions does not matter:
    two sequences with the same calls leave the same camera, hence the
    same resolved camera and the same view matrix. *)
Theorem run_commands_order_irrelevant c (ks ks' : list (Command R)) :
  Permutation ks ks' ->
  run_commands c ks = run_commands c ks' /\
  camera_view_matrix (run_commands c ks)
  = camera_view_matrix (run_commands c ks').
Proof.
  intros HP.
  assert (run_commands c ks = run_commands c ks') as E.
  { revert c. induction HP as [ | k l l' _ IH | j k l | l l' l'' _ IH1 _ IH2 ];
      intros c.
    - reflexivity.
    - cbn. apply IH.
    - cbn. now rewrite run_command_swap.
    - now rewrite IH1. }
  now rewrite E.
Qed.

Lemma run_commands_order_irrelevant_witness :
  let c := orbit_camera in
  let ks := [ Move (cm_init_vec3 1 0 0); Rotate (cm_init_vec3 0 1 0);
              Move (cm_init_vec3 0 0 2) ] in
  let ks' := [ Rotate (cm_init_vec3 0 1 0); Move (cm_init_vec3 0 0 2);
               Move (cm_init_vec3 1 0 0) ] in
  Permutation ks ks' /\ run_commands c ks = run_commands c ks'.
Proof.
  intros c ks ks'.
  assert (Permutation ks ks') as HP.
  { unfold ks, ks'.
    apply Permutation_trans with
      (l' := [ Rotate (cm_init_vec3 0 1 0); Move (cm_init_vec3 1 0 0);
               Move (cm_init_vec3 0 0 2) ]).
    - apply perm_swap.
    - apply perm_skip. apply perm_swap. }
  split; [ exact HP | ].
  apply (run_commands_order_irrelevant c ks ks' HP).
Defined.

End Resolution.

(** ** Resolving with nothing pending; degenerate bounds *)

Section Idle.
Local Open Scope R_scope.
Implicit Types (c : Camera R) (u v p : Vec3 R) (q a b : Quat R).

Lemma cm_min_max_idle (lo hi e : R) :
  lo <= e <= hi -> cm_min (hi - e) (cm_max (lo - e) 0) = 0.
Proof.
  intros H. unfold cm_min, cm_max. cbn. unfold R_ltb.
  repeat destruct (Rlt_dec _ _); lra.
Qed.


Lemma vec3_components v :
  v = cm_init_vec3 (axis_component Pitch v) (axis_component Yaw v)
                   (axis_component Roll v).
Proof. destruct v; reflexivity. Qed.

Lemma clamp_angles_rotation_only c :
  clamp_angles c
  = set_rotation_accumulator c (rotation_accumulator (clamp_angles c)).
Proof.
  unfold clamp_angles.
  destruct (has_flag (mode c) (Z.lor _ _));
    [ | destruct c; reflexivity ].
  cbn.
  destruct (has_flag (mode c) CAMERA_MODE_CLAMP_PITCH_ANGLE); cbn;
  destruct (has_flag (mode c) CAMERA_MODE_CLAMP_YAW_ANGLE); cbn;
  destruct (has_flag (mode c) CAMERA_MODE_CLAMP_ROLL_ANGLE); cbn;
  destruct c; reflexivity.
Qed.

(** With an empty rotation accumulator and every clamped angle inside its
    bounds the clamp block leaves the camera as it is. *)
Lemma clamp_angles_idle c :
  rotation_accumulator c = zero_vec3 ->
  (forall ax, has_flag (mode c) (axis_flag ax) = true ->
     axis_min ax c <= axis_component ax (cm_toEuler (orientation c))
     <= axis_max ax c) ->
  clamp_angles c = c.
Proof.
  intros Hrot Hin.
  assert (forall ax,
             axis_component ax (rotation_accumulator (clamp_angles c)) = 0)
    as Hcomp.
  { intros ax. destruct (has_flag (mode c) (axis_flag ax)) eqn:E.
    - rewrite clamp_angles_component by exact E.
      rewrite Hrot.
      replace (axis_component ax zero_vec3) with 0
        by (destruct ax; reflexivity).
      apply (cm_min_max_idle _ _ _ (Hin ax E)).
    - rewrite clamp_angles_component_off by exact E.
      rewrite Hrot. destruct ax; reflexivity. }
  rewrite clamp_angles_rotation_only.
  rewrite (vec3_components (rotation_accumulator (clamp_angles c))).
  rewrite !Hcomp.
  change (cm_init_vec3 0 0 0) with (@zero_vec3 R _).
  rewrite <- Hrot. destruct c; reflexivity.
Qed.

Lemma compose_orientation_idle c :
  rotation_accumulator c = zero_vec3 ->
  compose_orientation c = c.
Proof.
  intros Hrot. unfold compose_orientation. rewrite Hrot.
  change (vx zero_vec3) with 0. change (vy zero_vec3) with 0.
  change (vz zero_vec3) with 0.
  rewrite !cm_fromAxisAngle_0.
  destruct (has_flag (mode c) CAMERA_MODE_DISABLE_ROLL); cbn zeta;
    unfold set_orientation; cbn [orientation];
    rewrite ?cm_mulQuat_1_r, ?cm_mulQuat_1_l; destruct c; reflexivity.
Qed.

Lemma renormalize_orientation_idle c :
  rotation_accumulator c = zero_vec3 ->
  quat_norm2 (orientation c) = 1 ->
  renormalize_orientation c = c.
Proof.
  intros Hrot Hunit. unfold renormalize_orientation. cbv zeta.
  unfold set_rotation_accumulator, set_orientation, set_x, set_y, set_z.
  cbn [orientation rotation_accumulator vx vy vz target_position
       target_distance mode movement_accumulator minPitch maxPitch minYaw
       maxYaw minRoll maxRoll].
  rewrite cm_normalizeQuat_unit by exact Hunit.
  change (cm_init_vec3 f_0 f_0 f_0) with (@zero_vec3 R _).
  rewrite <- Hrot. destruct c; reflexivity.
Qed.

Lemma update_target_position_idle c :
  movement_accumulator c = zero_vec3 ->
  update_target_position c = c.
Proof.
  intros Hmov. unfold update_target_position. cbv zeta.
  unfold set_movement_accumulator, set_target_position, set_x, set_y, set_z.
  cbn [orientation rotation_accumulator vx vy vz target_position
       target_distance mode movement_accumulator minPitch maxPitch minYaw
       maxYaw minRoll maxRoll].
  rewrite Hmov.
  change (vx zero_vec3) with 0. change (vy zero_vec3) with 0.
  change (vz zero_vec3) with 0.
  assert (forall t u1 u2 u3,
             cm_add (cm_add (cm_add t (cm_scale u1 0)) (cm_scale u2 0))
                    (cm_scale u3 0) = t) as E
    by (intros; apply vec3_ext; cbn; ring).
  rewrite E.
  change (cm_init_vec3 f_0 f_0 f_0) with (@zero_vec3 R _).
  rewrite <- Hmov. destruct c; reflexivity.
Qed.

(** X13.  A resolved camera is a fixed point of [camera_view_matrix]: with
    both accumulators empty, a unit orientation and every clamped Euler
    angle inside its bounds, the call leaves the camera as it is and
    writes the matrix of that camera. *)
Theorem view_matrix_idle_fixed_point c :
  rotation_accumulator c = zero_vec3 ->
  movement_accumulator c = zero_vec3 ->
  quat_norm2 (orientation c) = 1 ->
  (forall ax, has_flag (mode c) (axis_flag ax) = true ->
     axis_min ax c <= axis_component ax (cm_toEuler (orientation c))
     <= axis_max ax c) ->
  camera_view_matrix c = (c, generate_view_matrix c).
Proof.
  intros Hrot Hmov Hunit Hin. unfold camera_view_matrix. cbv zeta.
  rewrite (clamp_angles_idle c Hrot Hin).
  rewrite (compose_orientation_idle c Hrot).
  rewrite (renormalize_orientation_idle c Hrot Hunit).
  rewrite (update_target_position_idle c Hmov).
  reflexivity.
Qed.

Lemma view_matrix_idle_fixed_point_witness :
  let c := example_camera CAMERA_MODE_CLAMP_PITCH_ANGLE identity_quat
             zero_vec3 zero_vec3 in
  quat_norm2 (orientation c) = 1 /\
  camera_view_matrix c = (c, generate_view_matrix c).
Proof.
  intros c.
  assert (quat_norm2 (orientation c) = 1) as Hunit
    by (unfold quat_norm2; cbn; lra).
  split; [ exact Hunit | ].
  apply (view_matrix_idle_fixed_point c eq_refl eq_refl Hunit).
  intros ax Hax. destruct ax; [ | discriminate Hax | discriminate Hax ].
  assert (axis_component Pitch (cm_toEuler (orientation c)) = 0) as ->.
  { cbn. unfold R_atan2.
    destruct (Rlt_dec 0 (1 - 2 * (0 * 0 + 0 * 0))) as [ _ | Hn ];
      [ | exfalso; lra ].
    replace (2 * (0 * 1 - 0 * 0) / (1 - 2 * (0 * 0 + 0 * 0))) with 0
      by (field; lra).
    apply atan_0. }
  cbn. lra.
Defined.

(** X14.  Without clamp flags, from a unit orientation,
    [camera_view_matrix] is idempotent: called twice in a row, the second
    call returns the camera and the matrix of the first. *)
Theorem view_matrix_twice c :
  quat_norm2 (orientation c) = 1 ->
  (forall ax, has_flag (mode c) (axis_flag ax) = false) ->
  camera_view_matrix (fst (camera_view_matrix c)) = camera_view_matrix c.
Proof.
  intros Hunit0 Hoff.
  assert (forall ax,
             has_flag (mode (fst (camera_view_matrix c))) (axis_flag ax)
             = false) as Hoff1
    by (intros ax; rewrite view_matrix_mode; apply Hoff).
  assert (quat_norm2 (orientation (fst (camera_view_matrix c))) = 1)
    as Hunit
    by (rewrite view_matrix_orientation; apply cm_normalizeQuat_norm2).
  assert (rotation_accumulator (fst (camera_view_matrix c)) = zero_vec3)
    as Hrot by reflexivity.
  assert (movement_accumulator (fst (camera_view_matrix c)) = zero_vec3)
    as Hmov by reflexivity.
  rewrite (surjective_pairing (camera_view_matrix c)) at 2.
  rewrite (view_matrix_matrix c).
  generalize dependent (fst (camera_view_matrix c)).
  intros c1 Hoff1 Hunit Hrot Hmov.
  unfold camera_view_matrix. cbv zeta.
  rewrite (clamp_angles_off c1 (has_flag_no_clamp _ Hoff1)).
  rewrite (compose_orientation_idle c1 Hrot).
  rewrite (renormalize_orientation_idle c1 Hrot Hunit).
  rewrite (update_target_position_idle c1 Hmov).
  reflexivity.
Qed.

Lemma view_matrix_twice_witness :
  let c := example_camera CAMERA_MODE_DISABLE_ROLL looking_down
             (cm_init_vec3 1 2 0) (cm_init_vec3 0 0 3) in
  quat_norm2 (orientation c) = 1 /\
  camera_view_matrix (fst (camera_view_matrix c)) = camera_view_matrix c.
Proof.
  intros c.
  assert (quat_norm2 (orientation c) = 1) as Hunit
    by (unfold quat_norm2; cbn; lra).
  split; [ exact Hunit | ].
  apply (view_matrix_twice c Hunit).
  intros ax. destruct ax; reflexivity.
Defined.



End Idle.

(** ** How the movement is applied *)

Section Movement.
Local Open Scope R_scope.
Implicit Types (c : Camera R) (u v p : Vec3 R) (q a b : Quat R).

Lemma camera_right_unit c :
  quat_norm2 (orientation c) = 1 ->
  vx (camera_right c) * vx (camera_right c)
  + vy (camera_right c) * vy (camera_right c)
  + vz (camera_right c) * vz (camera_right c) = 1.
Proof.
  intros H.
  transitivity (quat_norm2 (orientation c) * quat_norm2 (orientation c)).
  - unfold quat_norm2. cbn. ring.
  - rewrite H. ring.
Qed.

(** The three axes of a unit orientation are pairwise orthogonal. *)
Lemma camera_axes_orthogonal c :
  dot3 (camera_up c) (camera_forward c) = 0 /\
  dot3 (camera_right c) (camera_forward c) = 0 /\
  dot3 (camera_right c) (camera_up c) = 0.
Proof. repeat split; unfold dot3; cbn; ring. Qed.

(** With [CAMERA_MODE_MOVE_IN_WORLDPLANE] the right direction of the
    movement is a horizontal unit vector, whatever the unit orientation. *)
Lemma movement_basis_right_horizontal c :
  has_flag (mode c) CAMERA_MODE_MOVE_IN_WORLDPLANE = true ->
  quat_norm2 (orientation c) = 1 ->
  let w := snd (movement_basis c) in
  vy w = 0 /\ vx w * vx w + vz w * vz w = 1.
Proof.
  intros Hflag Hunit.
  pose proof (camera_right_unit c Hunit) as Hr.
  pose proof (camera_up_unit c Hunit) as Hu.
  pose proof (camera_axes_vertical c Hunit) as Hv.
  unfold movement_basis. rewrite Hflag. cbv zeta.
  change (fltb (f_1 - f_0_0001)%fl (vy (camera_forward c)))
    with (R_ltb (1 - / 10000) (vy (camera_forward c))).
  change (fltb (vy (camera_forward c)) (- f_1 + f_0_0001)%fl)
    with (R_ltb (vy (camera_forward c)) (- 1 + / 10000)).
  change (fltb (f_1 - f_0_0001)%fl (vy (camera_right c)))
    with (R_ltb (1 - / 10000) (vy (camera_right c))).
  change (fltb (vy (camera_right c)) (- f_1 + f_0_0001)%fl)
    with (R_ltb (vy (camera_right c)) (- 1 + / 10000)).
  revert Hr Hu Hv.
  generalize (camera_forward c) (camera_up c) (camera_right c).
  intros [ fx fy fz ] [ ux uy uz ] [ rx ry rz ]. cbn [vx vy vz].
  intros Hr Hu Hv.
  pose proof (Rle_0_sqr uy) as Huy. unfold Rsqr in Huy.
  pose proof (Rle_0_sqr ry) as Hry. unfold Rsqr in Hry.
  destruct (R_ltb (1 - / 10000) fy) eqn:Eup.
  { apply R_ltb_lt in Eup. cbn [fst snd].
    apply flatten_normalize. cbn.
    assert (ry * ry < 1) by nra. nra. }
  destruct (R_ltb fy (- 1 + / 10000)) eqn:Edown.
  { apply R_ltb_lt in Edown. cbn [fst snd].
    apply flatten_normalize. cbn.
    assert (ry * ry < 1) by nra. nra. }
  destruct (R_ltb (1 - / 10000) ry) eqn:Er1.
  { apply R_ltb_lt in Er1. cbn [fst snd].
    apply flatten_normalize. cbn.
    assert (uy * uy < 1) by nra. nra. }
  destruct (R_ltb ry (- 1 + / 10000)) eqn:Er2.
  { apply R_ltb_lt in Er2. cbn [fst snd].
    apply flatten_normalize. cbn.
    assert (uy * uy < 1) by nra. nra. }
  apply R_ltb_ge in Er1, Er2. cbn [fst snd].
  apply flatten_normalize. cbn. nra.
Qed.

(** The camera [camera_view_matrix] moves: its orientation is resolved
    and a unit, its mode is the mode of the call. *)
Lemma view_matrix_moved_camera c :
  let c1 := renormalize_orientation (compose_orientation (clamp_angles c)) in
  mode c1 = mode c /\ quat_norm2 (orientation c1) = 1 /\
  orientation (fst (camera_view_matrix c)) = orientation c1.
Proof.
  cbv zeta. split; [ | split ].
  - rewrite renormalize_orientation_mode, compose_orientation_mode.
    apply clamp_angles_mode.
  - rewrite renormalize_orientation_orientation.
    apply cm_normalizeQuat_norm2.
  - rewrite view_matrix_orientation, renormalize_orientation_orientation.
    reflexivity.
Qed.

Lemma movement_basis_ext c c' :
  orientation c' = orientation c -> mode c' = mode c ->
  movement_basis c' = movement_basis c.
Proof.
  intros Ho Hm. unfold movement_basis, camera_forward, camera_up,
    camera_right. rewrite Ho, Hm. reflexivity.
Qed.

(** X16.  Without [CAMERA_MODE_MOVE_IN_WORLDPLANE], from a unit
    orientation, the accumulated movement [(x, y, z)] is applied along the
    axes of the orientation as just resolved: the displacement of the
    target has the components [x] along forward, [y] along up and [z]
    along right, and so the length of the accumulated movement. *)
Theorem free_move_displacement c :
  quat_norm2 (orientation c) = 1 ->
  has_flag (mode c) CAMERA_MODE_MOVE_IN_WORLDPLANE = false ->
  let c1 := fst (camera_view_matrix c) in
  let d := vec3_minus (target_position c1) (target_position c) in
  d = cm_add (cm_add (cm_scale (camera_forward c1)
                               (vx (movement_accumulator c)))
                     (cm_scale (camera_up c1) (vy (movement_accumulator c))))
             (cm_scale (camera_right c1) (vz (movement_accumulator c))) /\
  dot3 d (camera_forward c1) = vx (movement_accumulator c) /\
  dot3 d (camera_up c1) = vy (movement_accumulator c) /\
  dot3 d (camera_right c1) = vz (movement_accumulator c) /\
  dot3 d d = dot3 (movement_accumulator c) (movement_accumulator c).
Proof.
  intros Hunit0 Hflag. cbv zeta.
  destruct (view_matrix_moved_camera c) as (Hm & Hunit & Ho).
  cbv zeta in Hm, Hunit, Ho.
  destruct (view_matrix_queries c) as (Hf & Hu & Hr).
  cbv zeta in Hf, Hu, Hr.
  rewrite view_matrix_target_position, Hf, Hu, Hr. cbv zeta.
  pose proof (camera_forward_unit _ Hunit) as Nf.
  pose proof (camera_up_unit _ Hunit) as Nu.
  pose proof (camera_right_unit _ Hunit) as Nr.
  destruct (camera_axes_orthogonal
              (renormalize_orientation
                 (compose_orientation (clamp_angles c)))) as (Ouf & Orf & Oru).
  assert (movement_basis
            (renormalize_orientation (compose_orientation (clamp_angles c)))
          = (camera_forward
               (renormalize_orientation
                  (compose_orientation (clamp_angles c))),
             camera_up
               (renormalize_orientation
                  (compose_orientation (clamp_angles c))),
             camera_right
               (renormalize_orientation
                  (compose_orientation (clamp_angles c))))) as ->.
  { unfold movement_basis at 1. rewrite Hm, Hflag. reflexivity. }
  cbn [fst snd].
  revert Nf Nu Nr Ouf Orf Oru.
  generalize (camera_forward
                (renormalize_orientation
                   (compose_orientation (clamp_angles c))))
             (camera_up
                (renormalize_orientation
                   (compose_orientation (clamp_angles c))))
             (camera_right
                (renormalize_orientation
                   (compose_orientation (clamp_angles c)))).
  intros [ fx fy fz ] [ ux uy uz ] [ rx ry rz ].
  destruct (target_position c) as [ tx ty tz ].
  destruct (movement_accumulator c) as [ mx my mz ].
  unfold dot3. cbn.
  intros Nf Nu Nr Ouf Orf Oru.
  split; [ apply vec3_ext; cbn; ring | ].
  split; [ | split; [ | split ] ].
  - transitivity (mx * (fx * fx + fy * fy + fz * fz)
                  + my * (ux * fx + uy * fy + uz * fz)
                  + mz * (rx * fx + ry * fy + rz * fz)); [ ring | ].
    rewrite Nf, Ouf, Orf. ring.
  - transitivity (mx * (ux * fx + uy * fy + uz * fz)
                  + my * (ux * ux + uy * uy + uz * uz)
                  + mz * (rx * ux + ry * uy + rz * uz)); [ ring | ].
    rewrite Nu, Ouf, Oru. ring.
  - transitivity (mx * (rx * fx + ry * fy + rz * fz)
                  + my * (rx * ux + ry * uy + rz * uz)
                  + mz * (rx * rx + ry * ry + rz * rz)); [ ring | ].
    rewrite Nr, Orf, Oru. ring.
  - transitivity (mx * mx * (fx * fx + fy * fy + fz * fz)
                  + my * my * (ux * ux + uy * uy + uz * uz)
                  + mz * mz * (rx * rx + ry * ry + rz * rz)
                  + 2 * mx * my * (ux * fx + uy * fy + uz * fz)
                  + 2 * mx * mz * (rx * fx + ry * fy + rz * fz)
                  + 2 * my * mz * (rx * ux + ry * uy + rz * uz)); [ ring | ].
    rewrite Nf, Nu, Nr, Ouf, Orf, Oru. ring.
Qed.

Lemma free_move_displacement_witness :
  let c := example_camera CAMERA_MODE_DISABLE_ROLL looking_down
             (cm_init_vec3 1 2 0) (cm_init_vec3 3 0 4) in
  let c1 := fst (camera_view_matrix c) in
  let d := vec3_minus (target_position c1) (target_position c) in
  quat_norm2 (orientation c) = 1 /\
  dot3 d d = dot3 (movement_accumulator c) (movement_accumulator c).
Proof.
  intros c.
  assert (quat_norm2 (orientation c) = 1) as Hunit
    by (unfold quat_norm2; cbn; lra).
  split; [ exact Hunit | ].
  apply (free_move_displacement c Hunit). reflexivity.
Defined.

(** X17.  With [CAMERA_MODE_MOVE_IN_WORLDPLANE], from a unit orientation,
    the accumulated movement [(x, y, z)] raises the target by exactly
    [y], and moves it in the horizontal plane by [x] times one horizontal
    unit vector plus [z] times another, whatever the camera looks at. *)
Theorem worldplane_move_displacement c :
  quat_norm2 (orientation c) = 1 ->
  has_flag (mode c) CAMERA_MODE_MOVE_IN_WORLDPLANE = true ->
  let c1 := fst (camera_view_matrix c) in
  let f := fst (fst (movement_basis c1)) in
  let r := snd (movement_basis c1) in
  let mov := movement_accumulator c in
  target_position c1
  = cm_add (target_position c)
      (cm_init_vec3 (vx mov * vx f + vz mov * vx r) (vy mov)
                    (vx mov * vz f + vz mov * vz r)) /\
  vy f = 0 /\ vx f * vx f + vz f * vz f = 1 /\
  vy r = 0 /\ vx r * vx r + vz r * vz r = 1.
Proof.
  intros Hunit0 Hflag. cbv zeta.
  destruct (view_matrix_moved_camera c) as (Hm & Hunit & Ho).
  cbv zeta in Hm, Hunit, Ho.
  rewrite (movement_basis_ext _ (fst (camera_view_matrix c)) Ho
             (eq_trans (view_matrix_mode c) (eq_sym Hm))).
  rewrite view_matrix_target_position. cbv zeta.
  rewrite <- Hm in Hflag.
  destruct (movement_basis_forward_horizontal _ Hflag Hunit) as (Fy & Fn).
  destruct (movement_basis_right_horizontal _ Hflag Hunit) as (Ry & Rn).
  assert (snd (fst (movement_basis
                      (renormalize_orientation
                         (compose_orientation (clamp_angles c)))))
          = CAMERA_WORLD_UP) as Hup
    by (unfold movement_basis; rewrite Hflag; reflexivity).
  rewrite Hup.
  revert Fy Fn Ry Rn.
  generalize (movement_basis
                (renormalize_orientation
                   (compose_orientation (clamp_angles c)))).
  intros [ [ [ fx fy fz ] u ] [ rx ry rz ] ]. cbn [fst snd vx vy vz].
  intros Fy Fn Ry Rn. subst fy ry.
  split; [ | auto ].
  destruct (target_position c) as [ tx ty tz ].
  destruct (movement_accumulator c) as [ mx my mz ].
  apply vec3_ext; cbn; ring.
Qed.

Lemma worldplane_move_displacement_witness :
  let c := example_camera CAMERA_MODE_FIRST_PERSON looking_down
             (cm_init_vec3 0 1 0) (cm_init_vec3 3 5 4) in
  quat_norm2 (orientation c) = 1 /\
  vy (target_position (fst (camera_view_matrix c)))
  = vy (target_position c) + 5.
Proof.
  intros c.
  assert (quat_norm2 (orientation c) = 1) as Hunit
    by (unfold quat_norm2; cbn; lra).
  split; [ exact Hunit | ].
  destruct (worldplane_move_displacement c Hunit eq_refl) as (E & _).
  rewrite E. reflexivity.
Defined.

End Movement.

(** ** The roll under [CAMERA_MODE_DISABLE_ROLL] *)

Section NoRoll.
Local Open Scope R_scope.
Implicit Types (c : Camera R) (u v p : Vec3 R) (q a b : Quat R).

Lemma cm_mul_mulQuat v a b :
  cm_mul (cm_mul v a) b = cm_mul v (cm_mulQuat a b).
Proof. apply vec3_ext; cbn; ring. Qed.

Lemma cm_invert_mulQuat a b :
  cm_invert (cm_mulQuat a b) = cm_mulQuat (cm_invert b) (cm_invert a).
Proof. apply quat_ext; cbn; ring. Qed.

(** A pitch turns about the right axis, which it leaves in place. *)
Lemma pitch_quat_fixes_right (rot : Vec3 R) :
  cm_mul CAMERA_WORLD_RIGHT (cm_invert (pitch_quat rot)) = CAMERA_WORLD_RIGHT.
Proof.
  pose proof (sin2_cos2_sum (vx rot * / 2)) as H.
  apply vec3_ext; cbn; nra.
Qed.

(** A yaw turns about the vertical, and keeps every height. *)
Lemma yaw_quat_keeps_height (rot : Vec3 R) v :
  vy (cm_mul v (cm_invert (yaw_quat rot))) = vy v.
Proof.
  pose proof (sin2_cos2_sum (vy rot * / 2)) as H.
  destruct v as [ x y z ]. cbn.
  assert (y * (sin (vy rot * / 2) * sin (vy rot * / 2)
               + cos (vy rot * / 2) * cos (vy rot * / 2)) = y) as Hy
    by (rewrite H; ring).
  lra.
Qed.

(** X18.  With [CAMERA_MODE_DISABLE_ROLL] the resolution induces no roll:
    whatever pitch and yaw are applied to a unit orientation, the height
    of the camera's right axis stays what it was, and so does the roll
    angle [cm_toEuler] reads: a camera whose right axis is level keeps it
    level. *)
Theorem disable_roll_keeps_right_axis_height c :
  has_flag (mode c) CAMERA_MODE_DISABLE_ROLL = true ->
  quat_norm2 (orientation c) = 1 ->
  let c1 := fst (camera_view_matrix c) in
  vy (camera_right c1) = vy (camera_right c) /\
  vz (cm_toEuler (orientation c1)) = vz (cm_toEuler (orientation c)).
Proof.
  intros Hroll Hunit. cbv zeta.
  assert (orientation (fst (camera_view_matrix c)) =
          cm_mulQuat (yaw_quat (rotation_accumulator (clamp_angles c)))
            (cm_mulQuat (orientation c)
                        (pitch_quat (rotation_accumulator (clamp_angles c)))))
    as Ho.
  { rewrite view_matrix_orientation, compose_orientation_orientation.
    cbv zeta. rewrite clamp_angles_mode, Hroll, clamp_angles_orientation.
    apply cm_normalizeQuat_unit.
    rewrite !quat_norm2_mul, yaw_quat_unit, pitch_quat_unit, Hunit. ring. }
  assert (vy (camera_right (fst (camera_view_matrix c)))
          = vy (camera_right c)) as Hright.
  { unfold camera_right. rewrite Ho, !cm_invert_mulQuat, <- !cm_mul_mulQuat.
    rewrite pitch_quat_fixes_right. apply yaw_quat_keeps_height. }
  assert (forall q, vz (cm_toEuler q)
                    = asin (vy (cm_mul CAMERA_WORLD_RIGHT (cm_invert q))))
    as Hroll_angle.
  { intros q. cbn. f_equal. ring. }
  split; [ exact Hright | ].
  rewrite !Hroll_angle. unfold camera_right in Hright.
  rewrite Hright. reflexivity.
Qed.

Lemma disable_roll_keeps_right_axis_height_witness :
  let c := example_camera CAMERA_MODE_FIRST_PERSON looking_down
             (cm_init_vec3 (1 / 3) 2 7) (cm_init_vec3 0 0 0) in
  quat_norm2 (orientation c) = 1 /\
  vy (camera_right (fst (camera_view_matrix c))) = vy (camera_right c).
Proof.
  intros c.
  assert (quat_norm2 (orientation c) = 1) as Hunit
    by (unfold quat_norm2; cbn; lra).
  split; [ exact Hunit | ].
  apply (disable_roll_keeps_right_axis_height c eq_refl Hunit).
Defined.

End NoRoll.

(** ** [camera_look_at] *)

Section LookAt.
Local Open Scope R_scope.
Implicit Types (c : Camera R) (u v p : Vec3 R) (q a b : Quat R).

(** The axes of a camera, in the components of its orientation. *)
Lemma camera_axes_components c :
  let x := qx (orientation c) in
  let y := qy (orientation c) in
  let z := qz (orientation c) in
  let w := qw (orientation c) in
  camera_right c
  = cm_init_vec3 (w * w + x * x - y * y - z * z) (2 * (x * y + w * z))
                 (2 * (x * z - w * y)) /\
  camera_up c
  = cm_init_vec3 (2 * (x * y - w * z)) (w * w - x * x + y * y - z * z)
                 (2 * (y * z + w * x)) /\
  camera_forward c
  = cm_init_vec3 (2 * (x * z + w * y)) (2 * (y * z - w * x))
                 (w * w - x * x - y * y + z * z).
Proof. repeat split; apply vec3_ext; cbn; ring. Qed.

Lemma cm_normalizeVec3_of_unit v : dot3 v v = 1 -> cm_normalizeVec3 v = v.
Proof.
  intros H. unfold cm_normalizeVec3. unfold dot3 in H.
  change (sqrtf (vx v * vx v + vy v * vy v + vz v * vz v)%fl)
    with (sqrt (vx v * vx v + vy v * vy v + vz v * vz v)).
  rewrite H, sqrt_1. apply vec3_ext; cbn; field.
Qed.

(** From the forward and up axes of a unit orientation, [camera_look_at]
    recovers the right axis and the up axis themselves. *)
Lemma camera_look_at_basis c :
  quat_norm2 (orientation c) = 1 ->
  cm_normalizeVec3 (cm_cross (camera_up c) (camera_forward c))
  = camera_right c /\
  cm_cross (camera_forward c) (camera_right c) = camera_up c.
Proof.
  intros H.
  assert (cm_cross (camera_up c) (camera_forward c)
          = cm_scale (camera_right c) (quat_norm2 (orientation c))) as E1
    by (apply vec3_ext; unfold quat_norm2; cbn; ring).
  assert (cm_cross (camera_forward c) (camera_right c)
          = cm_scale (camera_up c) (quat_norm2 (orientation c))) as E2
    by (apply vec3_ext; unfold quat_norm2; cbn; ring).
  assert (forall u, cm_scale u 1 = u) as E3
    by (intros u; apply vec3_ext; cbn; ring).
  rewrite E1, E2, H, !E3. split; [ | reflexivity ].
  apply cm_normalizeVec3_of_unit.
  transitivity (quat_norm2 (orientation c) * quat_norm2 (orientation c)).
  - unfold dot3, quat_norm2. cbn. ring.
  - rewrite H. ring.
Qed.

(** One branch of [camera_look_at]: the square root is twice the
    component [v] of the orientation, or twice its opposite. *)
Ltac look_at_branch v k :=
  exists k; split; [ lra | ];
  match goal with
  | |- context [ sqrt ?e ] =>
      replace (sqrt e) with (2 * (k * v))
        by (symmetry; replace e with ((2 * (k * v)) * (2 * (k * v))) by lra;
            apply sqrt_square; lra)
  end;
  apply quat_ext; cbn; field; lra.

Lemma camera_look_at_restores (x y z w : R) c' :
  x * x + y * y + z * z + w * w = 1 ->
  let right := cm_init_vec3 (w * w + x * x - y * y - z * z)
                 (2 * (x * y + w * z)) (2 * (x * z - w * y)) in
  let up := cm_init_vec3 (2 * (x * y - w * z))
              (w * w - x * x + y * y - z * z) (2 * (y * z + w * x)) in
  let forward := cm_init_vec3 (2 * (x * z + w * y)) (2 * (y * z - w * x))
                   (w * w - x * x - y * y + z * z) in
  cm_normalizeVec3 (cm_cross up forward) = right ->
  cm_cross forward right = up ->
  exists k, (k = 1 \/ k = -1) /\
    orientation (camera_look_at c' forward up)
    = quat_scale (cm_init_quat x y z w) k.
Proof.
  intros Hunit right up forward Hr Hu.
  unfold camera_look_at. cbv zeta. rewrite Hr, Hu.
  unfold right, up, forward. cbn [vx vy vz].
  unfold cm_sqrt.
  cbn [fltb fadd fsub fmul fdiv f_0 f_1 f_2 f_0_5 f_0_25 sqrtf R_scalar].
  cbn [orientation set_orientation].
  pose proof (Rle_0_sqr x) as Px. pose proof (Rle_0_sqr y) as Py.
  pose proof (Rle_0_sqr z) as Pz. pose proof (Rle_0_sqr w) as Pw.
  unfold Rsqr in Px, Py, Pz, Pw.
  destruct (R_ltb 0 _) eqn:E1.
  { apply R_ltb_lt in E1.
    destruct (Rlt_dec 0 w) as [ Hpos | Hneg ].
    - look_at_branch w 1.
    - assert (w < 0) as Hlt by nra. look_at_branch w (-1). }
  apply R_ltb_ge in E1.
  destruct (R_ltb _ _ && R_ltb _ _) eqn:E2.
  { apply andb_true_iff in E2. destruct E2 as [ E2 E2' ].
    apply R_ltb_lt in E2, E2'.
    destruct (Rlt_dec 0 x) as [ Hpos | Hneg ].
    - look_at_branch x 1.
    - assert (x < 0) as Hlt by nra. look_at_branch x (-1). }
  match goal with
  | |- context [ if R_ltb ?m ?n then _ else _ ] =>
      destruct (R_ltb m n) eqn:E3
  end.
  { apply R_ltb_lt in E3.
    destruct (Rlt_dec 0 y) as [ Hpos | Hneg ].
    - look_at_branch y 1.
    - assert (y < 0) as Hlt by nra. look_at_branch y (-1). }
  apply R_ltb_ge in E3.
  assert (x * x <= z * z) as Hxz.
  { apply andb_false_iff in E2. destruct E2 as [ E2 | E2 ];
      apply R_ltb_ge in E2; lra. }
  destruct (Rlt_dec 0 z) as [ Hpos | Hneg ].
  - look_at_branch z 1.
  - assert (z < 0) as Hlt by nra. look_at_branch z (-1).
Qed.

(** The axes only depend on the orientation up to its sign. *)
Lemma camera_axes_sign c c2 (k : R) :
  k = 1 \/ k = -1 ->
  orientation c2 = quat_scale (orientation c) k ->
  camera_forward c2 = camera_forward c /\
  camera_up c2 = camera_up c /\
  camera_right c2 = camera_right c.
Proof.
  intros Hk Ho. unfold camera_forward, camera_up, camera_right.
  rewrite Ho. destruct Hk as [ -> | -> ];
    repeat split; apply vec3_ext; cbn; ring.
Qed.

(** [camera_look_at] writes the orientation and nothing else. *)
Lemma camera_look_at_frame c (f u : Vec3 R) :
  camera_look_at c f u
  = set_orientation c (orientation (camera_look_at c f u)).
Proof.
  unfold camera_look_at. cbv zeta.
  repeat match goal with
         | |- context [ if ?b then _ else _ ] => destruct b
         end; reflexivity.
Qed.

(** X19.  [camera_look_at] is the inverse of the axis queries: given the
    forward and the up axis of a unit orientation it stores that
    orientation, or its opposite, which is the same rotation; so the
    camera it leaves has the forward, up and right axes it was asked for.
    It writes no other field of the camera. *)
Theorem camera_look_at_round_trip c c' :
  quat_norm2 (orientation c) = 1 ->
  let c2 := camera_look_at c' (camera_forward c) (camera_up c) in
  (orientation c2 = orientation c
   \/ orientation c2 = quat_scale (orientation c) (-1)) /\
  camera_forward c2 = camera_forward c /\
  camera_up c2 = camera_up c /\
  camera_right c2 = camera_right c /\
  c2 = set_orientation c' (orientation c2).
Proof.
  intros Hunit. cbv zeta.
  assert (exists k, (k = 1 \/ k = -1) /\
            orientation (camera_look_at c' (camera_forward c) (camera_up c))
            = quat_scale (orientation c) k) as (k & Hk & Ho).
  { destruct (camera_look_at_basis c Hunit) as (Hr & Hu).
    destruct (camera_axes_components c) as (Er & Eu & Ef).
    cbv zeta in Er, Eu, Ef.
    rewrite Er, Eu, Ef in Hr, Hu. rewrite Eu, Ef.
    unfold quat_norm2 in Hunit.
    destruct (orientation c) as [ x y z w ].
    cbn [qx qy qz qw] in *.
    apply (camera_look_at_restores x y z w c' Hunit Hr Hu). }
  split.
  { destruct Hk as [ -> | -> ]; [ left | right; exact Ho ].
    rewrite Ho. apply quat_ext; cbn; ring. }
  destruct (camera_axes_sign c _ k Hk Ho) as (Hf & Hu & Hr).
  split; [ exact Hf | ]. split; [ exact Hu | ]. split; [ exact Hr | ].
  apply camera_look_at_frame.
Qed.

Lemma camera_look_at_round_trip_witness :
  let c := orbit_camera in
  let c2 := camera_look_at camera_init (camera_forward c) (camera_up c) in
  quat_norm2 (orientation c) = 1 /\
  camera_forward c2 = camera_forward c /\
  camera_up c2 = camera_up c.
Proof.
  intros c.
  assert (quat_norm2 (orientation c) = 1) as Hunit
    by (unfold quat_norm2; cbn; lra).
  split; [ exact Hunit | ].
  destruct (camera_look_at_round_trip c camera_init Hunit)
    as (_ & Hf & Hu & _).
  split; [ exact Hf | exact Hu ].
Defined.

End LookAt.

Section LookAtUp.
Local Open Scope R_scope.
Implicit Types (c : Camera R) (u v p f : Vec3 R) (q a b : Quat R).




End LookAtUp.

(** ** Turning about the camera and about the target *)

Section OwnAxes.
Local Open Scope R_scope.
Implicit Types (c : Camera R) (u v p : Vec3 R) (q a b : Quat R).

(** Without [CAMERA_MODE_DISABLE_ROLL] and without clamping, a unit
    orientation is multiplied on the right by the pitch, the yaw and the
    roll. *)
Lemma view_matrix_free_rotate c (angles : Vec3 R) :
  has_flag (mode c) CAMERA_MODE_DISABLE_ROLL = false ->
  (forall ax, has_flag (mode c) (axis_flag ax) = false) ->
  quat_norm2 (orientation c) = 1 ->
  rotation_accumulator c = zero_vec3 ->
  orientation (fst (camera_view_matrix (camera_rotate c angles))) =
  cm_mulQuat
    (cm_mulQuat (cm_mulQuat (orientation c) (pitch_quat angles))
                (yaw_quat angles))
    (roll_quat angles).
Proof.
  intros Hroll Hclamp Hunit Hrot.
  rewrite view_matrix_orientation.
  rewrite clamp_angles_off by (apply has_flag_no_clamp; exact Hclamp).
  rewrite compose_orientation_orientation. cbv zeta.
  change (mode (camera_rotate c angles)) with (mode c).
  change (orientation (camera_rotate c angles)) with (orientation c).
  change (rotation_accumulator (camera_rotate c angles))
    with (cm_add (rotation_accumulator c) angles).
  rewrite Hroll, Hrot, cm_add_zero_l.
  apply cm_normalizeQuat_unit.
  rewrite !quat_norm2_mul, pitch_quat_unit, yaw_quat_unit, roll_quat_unit,
    Hunit. ring.
Qed.

Lemma cm_invert_unit q : quat_norm2 q = 1 -> quat_norm2 (cm_invert q) = 1.
Proof. intros H. rewrite <- H. unfold quat_norm2. cbn. ring. Qed.

Lemma cos_half_angle (g : R) :
  cos g = 1 - 2 * (sin (g * / 2) * sin (g * / 2)).
Proof.
  replace g with (2 * (g * / 2)) at 1 by field.
  rewrite cos_2a_sin. ring.
Qed.

(** X21.  Without [CAMERA_MODE_DISABLE_ROLL] the camera turns about its own
    axes, by the angle asked for: a pitch leaves [camera_right] in place,
    a yaw [camera_up] and a roll [camera_forward], and the angle between
    an axis that turns and what it was has the cosine of the angle of the
    call. *)
Theorem free_rotation_about_own_axes c (g : R) :
  has_flag (mode c) CAMERA_MODE_DISABLE_ROLL = false ->
  (forall ax, has_flag (mode c) (axis_flag ax) = false) ->
  quat_norm2 (orientation c) = 1 ->
  rotation_accumulator c = zero_vec3 ->
  let pitched :=
    fst (camera_view_matrix (camera_rotate c (cm_init_vec3 g 0 0))) in
  let yawed :=
    fst (camera_view_matrix (camera_rotate c (cm_init_vec3 0 g 0))) in
  let rolled :=
    fst (camera_view_matrix (camera_rotate c (cm_init_vec3 0 0 g))) in
  (camera_right pitched = camera_right c /\
   dot3 (camera_forward pitched) (camera_forward c) = cos g /\
   dot3 (camera_up pitched) (camera_up c) = cos g) /\
  (camera_up yawed = camera_up c /\
   dot3 (camera_forward yawed) (camera_forward c) = cos g /\
   dot3 (camera_right yawed) (camera_right c) = cos g) /\
  (camera_forward rolled = camera_forward c /\
   dot3 (camera_up rolled) (camera_up c) = cos g /\
   dot3 (camera_right rolled) (camera_right c) = cos g).
Proof.
  intros Hroll Hclamp Hunit Hrot. cbv zeta.
  pose proof (cm_invert_unit _ Hunit) as Hinv.
  pose proof (sin2_cos2_sum (g * / 2)) as Hsc.
  pose proof (cos_half_angle g) as Hcos.
  unfold camera_right, camera_up, camera_forward.
  rewrite !(view_matrix_free_rotate c _ Hroll Hclamp Hunit Hrot).
  unfold pitch_quat, yaw_quat, roll_quat. cbn [vx vy vz].
  rewrite !cm_fromAxisAngle_0, ?cm_mulQuat_1_r.
  rewrite !cm_invert_mulQuat, <- !cm_mul_mulQuat.
  rewrite !cm_mul_dot, Hinv, !Rmult_1_l.
  assert (cm_invert (@identity_quat R _) = identity_quat) as E1
    by (apply quat_ext; cbn; ring).
  assert (forall v, cm_mul v (@identity_quat R _) = v) as E2
    by (intros v; apply vec3_ext; cbn; ring).
  rewrite ?E1, ?E2.
  set (s := sin (g * / 2)) in *. set (k := cos (g * / 2)) in *.
  repeat split;
    try (f_equal; apply vec3_ext; cbn; fold s; fold k; nra);
    unfold dot3; cbn; fold s; fold k; nra.
Qed.

Lemma free_rotation_about_own_axes_witness :
  let c := example_camera CAMERA_MODE_FREE looking_down zero_vec3 zero_vec3 in
  let pitched :=
    fst (camera_view_matrix (camera_rotate c (cm_init_vec3 1 0 0))) in
  quat_norm2 (orientation c) = 1 /\
  camera_right pitched = camera_right c /\
  dot3 (camera_forward pitched) (camera_forward c) = cos 1.
Proof.
  intros c.
  assert (quat_norm2 (orientation c) = 1) as Hunit
    by (unfold quat_norm2; cbn; lra).
  split; [ exact Hunit | ].
  assert (forall ax, has_flag (mode c) (axis_flag ax) = false) as Hclamp
    by (intros ax; destruct ax; reflexivity).
  destruct (free_rotation_about_own_axes c 1 eq_refl Hclamp Hunit eq_refl)
    as ((Hr & Hf & _) & _).
  split; [ exact Hr | exact Hf ].
Defined.

End OwnAxes.

Section Orbit.
Local Open Scope R_scope.
Implicit Types (c : Camera R) (u v p : Vec3 R) (q a b : Quat R).

(** X22.  Rotating orbits the eye about the target: from a unit
    orientation, with no movement pending, [camera_view_matrix] leaves the
    target position where it is, whatever the mode and the rotation, and
    the eye of the resolved camera is at the target distance from it. *)
Theorem rotation_orbits_target c :
  quat_norm2 (orientation c) = 1 ->
  movement_accumulator c = zero_vec3 ->
  let c1 := fst (camera_view_matrix c) in
  target_position c1 = target_position c /\
  dot3 (vec3_minus (camera_eye c1) (target_position c))
       (vec3_minus (camera_eye c1) (target_position c))
  = target_distance c * target_distance c.
Proof.
  intros Hunit0 Hmov. cbv zeta.
  assert (target_position (fst (camera_view_matrix c)) = target_position c)
    as Ht.
  { rewrite view_matrix_target_position. cbv zeta. rewrite Hmov.
    change (vx zero_vec3) with 0. change (vy zero_vec3) with 0.
    change (vz zero_vec3) with 0.
    generalize (movement_basis
                  (renormalize_orientation
                     (compose_orientation (clamp_angles c)))).
    intros [ [ f u ] r ]. apply vec3_ext; cbn; ring. }
  split; [ exact Ht | ].
  assert (quat_norm2 (orientation (fst (camera_view_matrix c))) = 1)
    as Hunit
    by (rewrite view_matrix_orientation; apply cm_normalizeQuat_norm2).
  assert (target_distance (fst (camera_view_matrix c)) = target_distance c)
    as Hd.
  { change (target_distance (fst (camera_view_matrix c)))
      with (target_distance (compose_orientation (clamp_angles c))).
    destruct (compose_orientation_frame (clamp_angles c)) as (_ & -> & _).
    pose proof (clamp_angles_resolved_state c) as Hr.
    unfold resolved_state in Hr. congruence. }
  rewrite <- Ht, <- Hd.
  generalize dependent (fst (camera_view_matrix c)). intros c1 _ Hunit _.
  transitivity (quat_norm2 (orientation c1) * quat_norm2 (orientation c1)
                * (target_distance c1 * target_distance c1)).
  - unfold dot3, quat_norm2. cbn. ring.
  - rewrite Hunit. ring.
Qed.

Lemma rotation_orbits_target_witness :
  let c := camera_rotate orbit_camera (cm_init_vec3 (1 / 2) 2 0) in
  quat_norm2 (orientation c) = 1 /\
  target_position (fst (camera_view_matrix c)) = cm_init_vec3 1 2 3.
Proof.
  intros c.
  assert (quat_norm2 (orientation c) = 1) as Hunit
    by (unfold quat_norm2; cbn; lra).
  split; [ exact Hunit | ].
  destruct (rotation_orbits_target c Hunit eq_refl) as (Ht & _).
  rewrite Ht. reflexivity.
Defined.

End Orbit.

(** ** The pitch clamp, end to end *)

Section PitchClamp.
Local Open Scope R_scope.
Implicit Types (c : Camera R) (u v p : Vec3 R) (q a b : Quat R).

Lemma cm_fromAxisAngle_up_plus (x y : R) :
  cm_mulQuat (cm_fromAxisAngle CAMERA_WORLD_UP x)
             (cm_fromAxisAngle CAMERA_WORLD_UP y)
  = cm_fromAxisAngle CAMERA_WORLD_UP (x + y).
Proof.
  apply quat_ext; cbn;
    replace ((x + y) * / 2) with (x * / 2 + y * / 2) by ring;
    rewrite ?sin_plus, ?cos_plus; ring.
Qed.

Lemma cm_fromAxisAngle_up_unit (x : R) :
  quat_norm2 (cm_fromAxisAngle CAMERA_WORLD_UP x) = 1.
Proof. exact (yaw_quat_unit (cm_init_vec3 0 x 0)). Qed.

Lemma cm_fromAxisAngle_right_unit (x : R) :
  quat_norm2 (cm_fromAxisAngle CAMERA_WORLD_RIGHT x) = 1.
Proof. exact (pitch_quat_unit (cm_init_vec3 x 0 0)). Qed.

(** A camera that is yawed and then pitched is level, and [cm_toEuler]
    reads its pitch whatever the yaw. *)
Lemma cm_toEuler_yaw_pitch (yaw pitch : R) :
  - PI < pitch <= PI ->
  let q := cm_mulQuat (cm_fromAxisAngle CAMERA_WORLD_UP yaw)
                      (cm_fromAxisAngle CAMERA_WORLD_RIGHT pitch) in
  vx (cm_toEuler q) = pitch /\ vz (cm_toEuler q) = 0.
Proof.
  intros Hp. cbv zeta.
  pose proof (sin_2a (pitch * / 2)) as Hs.
  pose proof (cos_2a_sin (pitch * / 2)) as Hc.
  rewrite double_half in Hs, Hc.
  pose proof (sin2_cos2_sum (yaw * / 2)) as Hy.
  set (sp := sin (pitch * / 2)) in *. set (kp := cos (pitch * / 2)) in *.
  set (sy := sin (yaw * / 2)) in *. set (ky := cos (yaw * / 2)) in *.
  split.
  - cbn; fold sp; fold kp; fold sy; fold ky.
    match goal with
    | |- R_atan2 ?n ?d = _ =>
        replace n with (sin pitch);
        [ replace d with (cos pitch);
          [ apply R_atan2_angle, Hp | ] | ]
    end.
    + rewrite Hc.
      transitivity (1 - 2 * (sp * sp) * (sy * sy + ky * ky)); [ | ring ].
      rewrite Hy. ring.
    + rewrite Hs.
      transitivity (2 * sp * kp * (sy * sy + ky * ky)); [ | ring ].
      rewrite Hy. ring.
  - cbn; fold sp; fold kp; fold sy; fold ky.
    match goal with
    | |- asin ?n = _ => replace n with 0 by ring
    end.
    apply asin_0.
Qed.

(** X23.  The pitch clamp of a first-person camera holds the pitch within
    its bounds.  For a level camera, yawed by [yaw] and pitched by
    [pitch], with [CAMERA_MODE_DISABLE_ROLL] and the pitch clamp set and
    bounds in order within a half turn either way, [camera_view_matrix]
    leaves the camera yawed by the sum of the yaws and pitched by the sum
    of the pitches clamped to the bounds: that is the pitch [cm_toEuler]
    then reads, it lies within the bounds, and the camera is still
    level. *)
Theorem first_person_pitch_within_bounds c (yaw pitch : R) :
  has_flag (mode c) CAMERA_MODE_DISABLE_ROLL = true ->
  has_flag (mode c) CAMERA_MODE_CLAMP_PITCH_ANGLE = true ->
  has_flag (mode c) CAMERA_MODE_CLAMP_YAW_ANGLE = false ->
  orientation c
  = cm_mulQuat (cm_fromAxisAngle CAMERA_WORLD_UP yaw)
               (cm_fromAxisAngle CAMERA_WORLD_RIGHT pitch) ->
  - PI < pitch <= PI ->
  - PI < minPitch c -> minPitch c <= maxPitch c -> maxPitch c <= PI ->
  let c1 := fst (camera_view_matrix c) in
  let pitch1 :=
    clamp (pitch + vx (rotation_accumulator c)) (minPitch c) (maxPitch c) in
  orientation c1
  = cm_mulQuat
      (cm_fromAxisAngle CAMERA_WORLD_UP (vy (rotation_accumulator c) + yaw))
      (cm_fromAxisAngle CAMERA_WORLD_RIGHT pitch1) /\
  vx (cm_toEuler (orientation c1)) = pitch1 /\
  minPitch c <= vx (cm_toEuler (orientation c1)) <= maxPitch c /\
  vz (cm_toEuler (orientation c1)) = 0.
Proof.
  intros Hroll Hpitch Hyaw Ho Hp Hlo Hle Hhi. cbv zeta.
  destruct (cm_toEuler_yaw_pitch yaw pitch Hp) as (Hcur & _).
  cbv zeta in Hcur. rewrite <- Ho in Hcur.
  (* the clamp block *)
  assert (vx (rotation_accumulator (clamp_angles c))
          = clamp (pitch + vx (rotation_accumulator c)) (minPitch c)
                  (maxPitch c) - pitch) as Hx.
  { change (vx (rotation_accumulator (clamp_angles c)))
      with (axis_component Pitch (rotation_accumulator (clamp_angles c))).
    rewrite (clamp_angles_component Pitch c Hpitch).
    cbn [axis_component axis_min axis_max]. rewrite Hcur.
    change (fsub (maxPitch c) pitch) with (maxPitch c - pitch).
    change (fsub (minPitch c) pitch) with (minPitch c - pitch).
    rewrite cm_min_max_clamp by lra.
    unfold clamp. repeat destruct (Rlt_dec _ _); lra. }
  assert (vy (rotation_accumulator (clamp_angles c))
          = vy (rotation_accumulator c)) as Hy
    by apply (clamp_angles_component_off Yaw c Hyaw).
  assert (minPitch c
          <= clamp (pitch + vx (rotation_accumulator c)) (minPitch c)
                   (maxPitch c) <= maxPitch c) as Hin
    by (unfold clamp; repeat destruct (Rlt_dec _ _); lra).
  (* the orientation *)
  assert (orientation (fst (camera_view_matrix c))
          = cm_mulQuat
              (cm_fromAxisAngle CAMERA_WORLD_UP
                 (vy (rotation_accumulator c) + yaw))
              (cm_fromAxisAngle CAMERA_WORLD_RIGHT
                 (clamp (pitch + vx (rotation_accumulator c)) (minPitch c)
                        (maxPitch c)))) as Ho1.
  { rewrite view_matrix_orientation, compose_orientation_orientation.
    cbv zeta. rewrite clamp_angles_mode, clamp_angles_orientation, Hroll.
    unfold yaw_quat, pitch_quat. rewrite Hx, Hy, Ho.
    rewrite cm_mulQuat_assoc, cm_fromAxisAngle_right_plus.
    rewrite <- cm_mulQuat_assoc, cm_fromAxisAngle_up_plus.
    replace (pitch
             + (clamp (pitch + vx (rotation_accumulator c)) (minPitch c)
                      (maxPitch c) - pitch))
      with (clamp (pitch + vx (rotation_accumulator c)) (minPitch c)
                  (maxPitch c)) by ring.
    apply cm_normalizeQuat_unit.
    rewrite quat_norm2_mul.
    rewrite cm_fromAxisAngle_up_unit, cm_fromAxisAngle_right_unit.
    ring. }
  rewrite Ho1.
  destruct (cm_toEuler_yaw_pitch (vy (rotation_accumulator c) + yaw)
              (clamp (pitch + vx (rotation_accumulator c)) (minPitch c)
                     (maxPitch c))) as (E1 & E2); [ lra | ].
  cbv zeta in E1, E2. rewrite E1, E2.
  split; [ reflexivity | ]. split; [ reflexivity | ].
  split; [ exact Hin | reflexivity ].
Qed.

Lemma first_person_pitch_within_bounds_witness :
  let c := clamp_boundary_camera in
  minPitch c <= vx (cm_toEuler (orientation (fst (camera_view_matrix c))))
  <= maxPitch c.
Proof.
  intros c.
  pose proof PI_RGT_0 as Hpi. pose proof PI2_1 as Hpi2.
  assert (orientation c
          = cm_mulQuat (cm_fromAxisAngle CAMERA_WORLD_UP 0)
                       (cm_fromAxisAngle CAMERA_WORLD_RIGHT (PI / 2 - / 100)))
    as Ho by (rewrite cm_fromAxisAngle_0, cm_mulQuat_1_l; reflexivity).
  assert (- PI < PI / 2 - / 100 <= PI) as Hp by lra.
  assert (- PI < minPitch c) as Hlo by (cbn; lra).
  assert (minPitch c <= maxPitch c) as Hle by (cbn; lra).
  assert (maxPitch c <= PI) as Hhi by (cbn; lra).
  destruct (first_person_pitch_within_bounds c 0 (PI / 2 - / 100)
              eq_refl eq_refl eq_refl Ho Hp Hlo Hle Hhi)
    as (_ & _ & Hin & _).
  exact Hin.
Defined.

End PitchClamp.

(** ** Single precision: zero vectors and NaNs *)

Section Binary32Edges.

Import Binary32.

Variable m : Libm.

Lemma SFltb_nan_l (x : spec_float) : SFltb S754_nan x = false.
Proof. reflexivity. Qed.

Lemma SFltb_nan_r (x : spec_float) : SFltb x S754_nan = false.
Proof. destruct x as [ [ | ] | [ | ] | | [ | ] ? ? ]; reflexivity. Qed.

Lemma SFsub_nan_r (x : spec_float) : SFsub prec emax x S754_nan = S754_nan.
Proof. destruct x as [ [ | ] | [ | ] | | [ | ] ? ? ]; reflexivity. Qed.

(** X24.  In single precision [cm_normalizeVec3] has no fallback for the
    zero vector: whatever the signs of its zeros, the length is zero, its
    inverse is infinite, and every component of the result is a NaN. *)
Theorem cm_normalizeVec3_zero_is_nan (sx sy sz : bool) :
  @cm_normalizeVec3 _ (scalar m)
    (cm_init_vec3 (S754_zero sx) (S754_zero sy) (S754_zero sz))
  = cm_init_vec3 S754_nan S754_nan S754_nan.
Proof. destruct sx, sy, sz; reflexivity. Qed.

(** X25.  In single precision the clamp block does not contain a NaN: for
    an axis whose clamp flag is set, a rotation delta that is a NaN stays
    a NaN, and when the Euler angle read from the orientation is a NaN
    (or both bounds are) the accumulated delta is applied unclamped. *)
Theorem clamp_angles_nan (ax : Axis) (c : Camera spec_float) :
  has_flag (mode c) (axis_flag ax) = true ->
  let clamped :=
    axis_component ax (rotation_accumulator (@clamp_angles _ (scalar m) c)) in
  (axis_component ax (rotation_accumulator c) = S754_nan ->
   clamped = S754_nan) /\
  (axis_component ax (@cm_toEuler _ (scalar m) (orientation c)) = S754_nan ->
   clamped = axis_component ax (rotation_accumulator c)) /\
  (axis_min ax c = S754_nan -> axis_max ax c = S754_nan ->
   clamped = axis_component ax (rotation_accumulator c)).
Proof.
  intros Hax clamped. unfold clamped.
  rewrite (@clamp_angles_component _ (scalar m) ax c Hax).
  unfold cm_min, cm_max. cbn [fltb fsub scalar].
  split; [ | split ].
  - intros ->. rewrite SFltb_nan_l. now rewrite SFltb_nan_r.
  - intros ->. rewrite !SFsub_nan_r. now rewrite !SFltb_nan_r, !SFltb_nan_l.
  - intros -> ->. change (SFsub prec emax S754_nan ?x) with S754_nan.
    now rewrite !SFltb_nan_r, !SFltb_nan_l.
Qed.

(** X26.  In single precision, for an axis whose clamp flag is set and
    whose two bounds, each minus the current Euler angle, are in order,
    the delta that is applied is the accumulated delta clamped between
    them with the comparisons of IEEE 754. *)
Theorem clamp_angles_binary32 (ax : Axis) (c : Camera spec_float) :
  has_flag (mode c) (axis_flag ax) = true ->
  let e := axis_component ax (@cm_toEuler _ (scalar m) (orientation c)) in
  let lo := SFsub prec emax (axis_min ax c) e in
  let hi := SFsub prec emax (axis_max ax c) e in
  SFleb lo hi = true ->
  axis_component ax (rotation_accumulator (@clamp_angles _ (scalar m) c))
  = clamp32 (axis_component ax (rotation_accumulator c)) lo hi.
Proof.
  intros Hax e lo hi Hle.
  rewrite (@clamp_angles_component _ (scalar m) ax c Hax).
  apply (Binary32Facts.cm_min_max_clamp32 m _ lo hi Hle).
Qed.

End Binary32Edges.

Lemma clamp_angles_nan_witness :
  let c := pitch_clamp_camera32 S754_nan in
  has_flag (mode c) (axis_flag Pitch) = true /\
  vx (rotation_accumulator (@clamp_angles _ (Binary32.scalar zero_libm) c))
  = S754_nan.
Proof.
  intros c. split; [ reflexivity | ].
  apply (proj1 (clamp_angles_nan zero_libm Pitch c eq_refl)).
  reflexivity.
Defined.

Lemma clamp_angles_binary32_witness :
  let c := pitch_clamp_camera32 (S754_finite false 8388608 (-22)) in
  has_flag (mode c) (axis_flag Pitch) = true /\
  vx (rotation_accumulator (@clamp_angles _ (Binary32.scalar zero_libm) c))
  = S754_finite false 8388608 (-23).
Proof.
  intros c. split; [ reflexivity | ].
  exact (clamp_angles_binary32 zero_libm Pitch c eq_refl eq_refl).
Defined.

(** * The claims that are corrected *)

(** ** The angle after a clamp *)

Section ClampCounterexample.

Local Open Scope R_scope.



End ClampCounterexample.

(** ** Normalization in single precision *)

Section NormalizeFloat.

Import Binary32.

Variable m : Libm.

(** C9.  In single precision [cm_normalizeQuat] returns the identity
    quaternion whenever the sum of squares, as computed, is not above
    zero: when it is zero or below, and when it is a NaN; otherwise it
    returns the input with every component multiplied by
    [powf(norm, -0.5f)].  One of the three cases always holds, and the
    sum of squares of an input without NaN is not a NaN.  No division is
    evaluated: the result does not depend on what the division does. *)
Theorem cm_normalizeQuat_float_spec (q : Quat spec_float) :
  let norm := @quat_norm2 _ (scalar m) q in
  let invNorm := libm_powf m norm (SFopp (@f_0_5 _ (scalar m))) in
  (SFleb norm (S754_zero false) = true ->
   @cm_normalizeQuat _ (scalar m) q = @identity_quat _ (scalar m)) /\
  (is_nan norm = true ->
   @cm_normalizeQuat _ (scalar m) q = @identity_quat _ (scalar m)) /\
  (SFltb (S754_zero false) norm = true ->
   @cm_normalizeQuat _ (scalar m) q = quat_scale32 q invNorm) /\
  (SFleb norm (S754_zero false) = true \/ is_nan norm = true
   \/ SFltb (S754_zero false) norm = true) /\
  (quat_has_nan q = false -> is_nan norm = false) /\
  (forall d, @cm_normalizeQuat _ (scalar_with_div m d) q
             = @cm_normalizeQuat _ (scalar m) q).
Proof.
  intros norm invNorm.
  assert (@cm_normalizeQuat _ (scalar m) q
          = if SFltb (S754_zero false) norm then quat_scale32 q invNorm
            else @identity_quat _ (scalar m)) as E by reflexivity.
  rewrite E.
  split; [ | split; [ | split; [ | split; [ | split ] ] ] ].
  - intros H. rewrite (Binary32Facts.SFleb_not_SFltb _ _ H). reflexivity.
  - intros H. destruct norm; try discriminate H. reflexivity.
  - intros ->. reflexivity.
  - destruct norm as [ [ | ] | [ | ] | | [ | ] mn en ]; cbn; auto.
  - intros Hq.
    pose proof (Binary32Facts.quat_norm2_nonneg_float m q Hq) as Hn.
    fold norm in Hn. destruct norm as [ [ | ] | [ | ] | | [ | ] mn en ];
      try discriminate Hn; reflexivity.
  - intros d. reflexivity.
Qed.

End NormalizeFloat.

Section FloatCounterexamples.

Import Binary32.




Lemma quat_scale32_zero_w (q : Quat spec_float) (k : spec_float) :
  qw q = S754_zero false ->
  quat_scale32 q k <> @identity_quat _ (scalar annex_f_libm).
Proof.
  intros Hw H. apply (f_equal (@qw _)) in H. cbn in H. rewrite Hw in H.
  destruct k as [ [ | ] | [ | ] | | [ | ] mk ek ]; discriminate H.
Qed.

(** C9, counterexample.  The quaternion [(2^-100, 0, 0, 0)] is not zero,
    but its square is below the range of [float]: the sum of squares is
    computed as zero and [cm_normalizeQuat] returns the identity, which is
    not the input scaled by anything.  For an input with a NaN the sum of
    squares is a NaN, which is not at or below zero, and the identity is
    returned all the same. *)
Lemma cm_normalizeQuat_underflow_and_nan :
  let s := scalar annex_f_libm in
  (qx tiny_quat32 <> S754_zero false /\ qx tiny_quat32 <> S754_zero true /\
   @quat_norm2 _ s tiny_quat32 = S754_zero false /\
   @cm_normalizeQuat _ s tiny_quat32 = @identity_quat _ s /\
   (forall k, quat_scale32 tiny_quat32 k <> @identity_quat _ s)) /\
  (SFleb (@quat_norm2 _ s nan_quat32) (S754_zero false) = false /\
   @cm_normalizeQuat _ s nan_quat32 = @identity_quat _ s /\
   (forall k, quat_scale32 nan_quat32 k <> @identity_quat _ s)).
Proof.
  cbv zeta. split.
  - split; [ discriminate | ]. split; [ discriminate | ].
    split; [ reflexivity | ]. split; [ reflexivity | ].
    intros k. apply quat_scale32_zero_w. reflexivity.
  - split; [ reflexivity | ]. split; [ reflexivity | ].
    intros k. apply quat_scale32_zero_w. reflexivity.
Qed.

End FloatCounterexamples.
